(** * Xenomint state: savepoints, query pool, replay and block reconciliation

    A shallow embedding of the [xenomint] package's [State] (the file that
    declares [State], [write], [replay], [ReplayBlockWithContext], ...).

    The engine keeps one long-running write transaction on the storage and
    names savepoints inside it by a 64-bit counter.  The storage, the query
    translator and the clock live outside the package; their answers are
    taken from a [Storage] record of oracles, and every call the engine makes
    on them (and on its own mutex) is recorded, in order, in the [trace] of
    the state, so that "a savepoint is issued", "the transaction is
    committed" or "nothing is committed" are statements about that trace. *)

From Stdlib Require Import ZArith List String Bool Lia.
Import ListNotations.
Open Scope Z_scope.

(** ** Machine integers *)

(** [uint64] values are integers in [0, 2^64); [wrap_uint64] is the result of
    an unsigned 64-bit operation whose exact value is [z]. *)
Definition wrap_uint64 (z : Z) : Z := z mod 2 ^ 64.

Definition uint64_range (z : Z) : Prop := 0 <= z < 2 ^ 64.

(** [int64] values are integers in [-2^63, 2^63). *)
Definition wrap_int64 (z : Z) : Z := (z + 2 ^ 63) mod 2 ^ 64 - 2 ^ 63.

Definition int64_range (z : Z) : Prop := - 2 ^ 63 <= z < 2 ^ 63.

(** ** Requests, responses and blocks (package [types]) *)

Inductive QueryType : Type :=
| ReadQuery
| WriteQuery
| InvalidQuery.

Record NamedArg : Type := mkNamedArg {
  Name : string;
  Value : string
}.

Record Query : Type := mkQuery {
  Pattern : string;
  Args : list NamedArg
}.

Record RequestHeader : Type := mkRequestHeader {
  QueryType_ : QueryType;
  NodeID : string;
  DatabaseID : string;
  ConnectionID : Z;
  SeqNo : Z
}.

Record RequestPayload : Type := mkRequestPayload {
  Queries : list Query
}.

Record Request : Type := mkRequest {
  Request_Header : RequestHeader;
  Request_Payload : RequestPayload
}.

Record ResponseHeader : Type := mkResponseHeader {
  ResponseHeader_Request : RequestHeader;
  ResponseHeader_NodeID : string;
  Timestamp : Z;
  RowCount : Z;
  LogOffset : Z;
  LastInsertID : Z;
  AffectedRows : Z
}.

Record SignedResponseHeader : Type := mkSignedResponseHeader {
  ResponseHeader_ : ResponseHeader
}.

Record ResponseRow : Type := mkResponseRow {
  Values : list string
}.

Record ResponsePayload : Type := mkResponsePayload {
  Columns : list string;
  DeclTypes : list string;
  Rows : list ResponseRow
}.

Record Response : Type := mkResponse {
  Response_Header : SignedResponseHeader;
  Response_Payload : ResponsePayload
}.

Record QueryAsTx : Type := mkQueryAsTx {
  QueryAsTx_Request : Request;
  QueryAsTx_Response : SignedResponseHeader
}.

Record Block : Type := mkBlock {
  QueryTxs : list QueryAsTx;
  FailedReqs : list Request
}.

(** A tracker pairs a request with its response, when there is one. *)
Record QueryTracker : Type := mkQueryTracker {
  Req : Request;
  Resp : option Response
}.

(** ** Errors *)

(** The text that [errors.Wrap] and [errors.Wrapf] put in front of a cause. *)
Inductive annotation : Type :=
| QueryAtFailed (i : nat)               (* "query at #%d failed" *)
| ExecuteAtFailed (i : nat)             (* "execute at #%d failed" *)
| OpenTxFailed                          (* "open tx failed" *)
| LocalVsReplaying (local replaying : Z) (* "local id %d vs replaying id %d" *)
| ReplayBlockAt (i j : nat)             (* "replay block at %d:%d" *)
| ExecuteAtBlockFailed (i j : nat).     (* "execute at %d:%d failed" *)

Inductive error : Type :=
| ErrMissingParent
| ErrQueryConflict
| ErrInvalidRequest
| ErrExternal (msg : string)  (* raised by the storage or the translator *)
| Wrapf (cause : error) (msg : annotation).

(** [errors.Cause]: the innermost error of a chain of wrappers. *)
Fixpoint Cause (e : error) : error :=
  match e with
  | Wrapf c _ => Cause c
  | _ => e
  end.

(** ** Equality of requests *)

Definition QueryType_eq_dec (a b : QueryType) : {a = b} + {a <> b}.
Proof. decide equality. Defined.

Definition NamedArg_eq_dec (a b : NamedArg) : {a = b} + {a <> b}.
Proof. decide equality; apply string_dec. Defined.

Definition Query_eq_dec (a b : Query) : {a = b} + {a <> b}.
Proof.
  decide equality; [apply (list_eq_dec NamedArg_eq_dec) | apply string_dec].
Defined.

Definition RequestHeader_eq_dec (a b : RequestHeader) : {a = b} + {a <> b}.
Proof.
  decide equality;
    try apply Z.eq_dec; try apply string_dec; apply QueryType_eq_dec.
Defined.

Definition Request_eq_dec (a b : Request) : {a = b} + {a <> b}.
Proof.
  decide equality.
  - decide equality. apply (list_eq_dec Query_eq_dec).
  - apply RequestHeader_eq_dec.
Defined.

Definition Request_eqb (a b : Request) : bool :=
  if Request_eq_dec a b then true else false.

(** ** The query pool *)

(** Modelled from the spec: the pool type and its methods ([newPool],
    [enqueue], [setFailed], [removeFailed], [failedList], [match],
    [matchLast], [truncate]) are declared in a file of the package that is
    not among the sources.  The spec describes the pool as an ordered mapping
    from savepoint id to tracker, to which [enqueue] appends, together with a
    set of failed requests; the two counters are the sizes of the two parts. *)
Record pool : Type := mkPool {
  queries : list (Z * QueryTracker);
  failed : list Request
}.

Definition newPool : pool := mkPool [] [].

(** Modelled from the spec: append the tracker to the ordered map under
    [savepoint]. *)
Definition enqueue (p : pool) (savepoint : Z) (q : QueryTracker) : pool :=
  mkPool (queries p ++ [(savepoint, q)]) (failed p).

(** Modelled from the spec: add the request to the failed set; idempotent on
    an equal request. *)
Definition setFailed (p : pool) (req : Request) : pool :=
  if existsb (Request_eqb req) (failed p) then p
  else mkPool (queries p) (failed p ++ [req]).

(** Modelled from the spec: drop the request from the failed set. *)
Definition removeFailed (p : pool) (req : Request) : pool :=
  mkPool (queries p) (filter (fun r => negb (Request_eqb req r)) (failed p)).

(** Modelled from the spec: a snapshot of the failed set. *)
Definition failedList (p : pool) : list Request := failed p.

(** Modelled from the spec: true iff a tracker at [savepoint] exists and its
    request is equal to the given one.  ([match] is a keyword, hence the
    underscore.) *)
Definition match_ (p : pool) (savepoint : Z) (req : Request) : bool :=
  existsb (fun kq => (fst kq =? savepoint) && Request_eqb (Req (snd kq)) req)
          (queries p).

(** Modelled from the spec: true iff the highest-keyed savepoint in the pool
    equals [savepoint]. *)
Definition matchLast (p : pool) (savepoint : Z) : bool :=
  match map fst (queries p) with
  | [] => false
  | k :: ks => fold_left Z.max ks k =? savepoint
  end.

(** Modelled from the spec: remove all trackers with key [<= upTo]. *)
Definition truncate (p : pool) (upTo : Z) : pool :=
  mkPool (filter (fun kq => upTo <? fst kq) (queries p)) (failed p).

Definition trackerCount (p : pool) : Z := Z.of_nat (List.length (queries p)).
Definition failedRequestCount (p : pool) : Z := Z.of_nat (List.length (failed p)).

(** ** The world outside the engine *)

(** What a read runs its statements on: the open write transaction
    ([s.unc]), a transaction opened on the dirty reader, or the dirty reader
    itself. *)
Inductive querier : Type :=
| OnUnc
| OnReaderTx
| OnDirtyReader.

(** One call made by the engine, on the storage or on its own mutex. *)
Inductive Event : Type :=
| EvLock                                          (* s.Lock() *)
| EvUnlock                                        (* s.Unlock() *)
| EvBegin                                         (* s.strg.Writer().Begin() *)
| EvCommit                                        (* s.unc.Commit() *)
| EvExec (pattern : string) (args : list NamedArg) (* s.unc.ExecContext *)
| EvSavepoint (id : Z)                            (* SAVEPOINT "id" on s.unc *)
| EvRollbackTo (id : Z)                           (* ROLLBACK TO "id" on s.unc *)
| EvQuery (qer : querier) (pattern : string) (args : list NamedArg)
| EvReaderBegin                                   (* s.strg.DirtyReader().Begin() *)
| EvReaderRollback.                               (* tx.Rollback() *)

(** [sql.Result], with the errors of its two getters dropped as the engine
    drops them. *)
Record Result : Type := mkResult {
  RowsAffected : Z;
  LastInsertId : Z
}.

(** What [readSingle] hands back for one statement. *)
Record ResultSet : Type := mkResultSet {
  names : list string;
  types : list string;
  data : list (list string)
}.

(** The answers of the collaborators, each as a function of the calls made so
    far.  [convertQueryAndBuildArgs] is the query translator (it is declared
    in a file of the package that is not among the sources): it fails, or
    gives the DDL flag, the rewritten pattern and the bound arguments. *)
Record Storage : Type := mkStorage {
  convertQueryAndBuildArgs :
    string -> list NamedArg -> error + (bool * string * list NamedArg);
  ExecContext : list Event -> string -> list NamedArg -> error + Result;
  QueryContext :
    list Event -> querier -> string -> list NamedArg -> error + ResultSet;
  Begin : list Event -> option error;
  Commit : list Event -> option error;
  ReaderBegin : list Event -> option error;
  Now : list Event -> Z
}.

(** ** The state *)

Record State : Type := mkState {
  strg : Storage;
  trace : list Event;
  pool_ : pool;
  closed : bool;
  nodeID : string;
  origin : Z;           (* uint64 *)
  cmpoint : Z;          (* uint64 *)
  current : Z;          (* uint64 *)
  hasSchemaChange : Z   (* uint32 *)
}.

Definition emit (e : Event) (s : State) : State :=
  mkState (strg s) (trace s ++ [e]) (pool_ s) (closed s) (nodeID s)
          (origin s) (cmpoint s) (current s) (hasSchemaChange s).

Definition with_pool (p : pool) (s : State) : State :=
  mkState (strg s) (trace s) p (closed s) (nodeID s)
          (origin s) (cmpoint s) (current s) (hasSchemaChange s).

Definition with_origin (v : Z) (s : State) : State :=
  mkState (strg s) (trace s) (pool_ s) (closed s) (nodeID s)
          v (cmpoint s) (current s) (hasSchemaChange s).

Definition with_cmpoint (v : Z) (s : State) : State :=
  mkState (strg s) (trace s) (pool_ s) (closed s) (nodeID s)
          (origin s) v (current s) (hasSchemaChange s).

Definition with_current (v : Z) (s : State) : State :=
  mkState (strg s) (trace s) (pool_ s) (closed s) (nodeID s)
          (origin s) (cmpoint s) v (hasSchemaChange s).

Definition with_hasSchemaChange (v : Z) (s : State) : State :=
  mkState (strg s) (trace s) (pool_ s) (closed s) (nodeID s)
          (origin s) (cmpoint s) (current s) v.

Definition Lock (s : State) : State := emit EvLock s.
Definition Unlock (s : State) : State := emit EvUnlock s.

(** ** Counter and savepoints *)

Definition getID (s : State) : Z := current s.

Definition incSeq (s : State) : State :=
  with_current (wrap_uint64 (current s + 1)) s.

Definition setNextTxID (s : State) : State :=
  let current := getID s in
  with_cmpoint current (with_origin current s).

Definition setCommitPoint (s : State) : State :=
  with_cmpoint (getID s) s.

Definition rollbackID (id : Z) (s : State) : State :=
  with_current id s.

(** The engine does not look at what the storage answers to [SAVEPOINT] and
    [ROLLBACK TO]. *)
Definition setSavepoint (s : State) : State * Z :=
  let savepoint := getID s in
  (emit (EvSavepoint savepoint) s, savepoint).

Definition rollbackTo (savepoint : Z) (s : State) : State :=
  emit (EvRollbackTo savepoint) (rollbackID savepoint s).

Definition InitTx (id : Z) (s : State) : State :=
  fst (setSavepoint (rollbackID id (with_cmpoint id (with_origin id s)))).

Definition NewState (nodeID : string) (strg : Storage) : error + State :=
  let t := mkState strg [EvBegin] newPool false nodeID 0 0 0 0 in
  match Begin strg [] with
  | Some err => inl err
  | None => inr (fst (setSavepoint t))
  end.

Definition getLocalTime (s : State) : Z := Now (strg s) (trace s).

(** ** Reading *)

Definition readSingle (qer : querier) (q : Query) (s : State)
  : State * (error + ResultSet) :=
  match convertQueryAndBuildArgs (strg s) (Pattern q) (Args q) with
  | inl err => (s, inl err)
  | inr (_, pattern, args) =>
      (emit (EvQuery qer pattern args) s,
       QueryContext (strg s) (trace s) qer pattern args)
  end.

Definition buildRowsFromNativeData (data : list (list string))
  : list ResponseRow :=
  map mkResponseRow data.

(** The loop over [req.Payload.Queries] shared by [readWithContext] and
    [readTx]: [i] is the index of the head of [qs], [last] what the previous
    statement returned. *)
Fixpoint readQueries (qer : querier) (req : Request) (i : nat)
    (qs : list Query) (last : ResultSet) (s : State)
  : State * (error + ResultSet) :=
  match qs with
  | [] => (s, inr last)
  | v :: rest =>
      match readSingle qer v s with
      | (s1, inl ierr) =>
          (with_pool (setFailed (pool_ s1) req) s1,
           inl (Wrapf ierr (QueryAtFailed i)))
      | (s1, inr rs) => readQueries qer req (S i) rest rs s1
      end
  end.

Definition noResultSet : ResultSet := mkResultSet [] [] [].

Definition readResponse (req : Request) (s : State) (rs : ResultSet)
    (logOffset : Z) : QueryTracker * Response :=
  (mkQueryTracker req None,
   mkResponse
     (mkSignedResponseHeader
        (mkResponseHeader (Request_Header req) (nodeID s) (getLocalTime s)
           (Z.of_nat (List.length (data rs))) logOffset 0 0))
     (mkResponsePayload (names rs) (types rs)
        (buildRowsFromNativeData (data rs)))).

Definition readWithContext (req : Request) (s : State)
  : State * (error + QueryTracker * Response) :=
  match readQueries OnDirtyReader req 0 (Queries (Request_Payload req))
                    noResultSet s with
  | (s1, inl err) => (s1, inl err)
  | (s1, inr rs) => (s1, inr (readResponse req s1 rs (getID s1)))
  end.

Definition readTx (req : Request) (s : State)
  : State * (error + QueryTracker * Response) :=
  if hasSchemaChange s =? 1 then
    let s1 := Lock s in
    let id := getID s1 in
    let s2 := fst (setSavepoint s1) in
    match readQueries OnUnc req 0 (Queries (Request_Payload req))
                      noResultSet s2 with
    | (s3, inl err) => (Unlock (rollbackTo id s3), inl err)
    | (s3, inr rs) =>
        (Unlock (rollbackTo id s3), inr (readResponse req s3 rs id))
    end
  else
    let id := getID s in
    let s1 := emit EvReaderBegin s in
    match ReaderBegin (strg s) (trace s) with
    | Some ierr => (s1, inl (Wrapf ierr OpenTxFailed))
    | None =>
        match readQueries OnReaderTx req 0 (Queries (Request_Payload req))
                          noResultSet s1 with
        | (s2, inl err) => (emit EvReaderRollback s2, inl err)
        | (s2, inr rs) =>
            (emit EvReaderRollback s2, inr (readResponse req s2 rs id))
        end
    end.

(** ** Writing *)

Definition writeSingle (q : Query) (s : State) : State * (error + Result) :=
  match convertQueryAndBuildArgs (strg s) (Pattern q) (Args q) with
  | inl err => (s, inl err)
  | inr (containsDDL, pattern, args) =>
      let s1 := emit (EvExec pattern args) s in
      match ExecContext (strg s) (trace s) pattern args with
      | inl err => (s1, inl err)
      | inr res =>
          (incSeq (if containsDDL then with_hasSchemaChange 1 s1 else s1),
           inr res)
      end
  end.

(** The loop of [write]: [i] is the index of the head of [qs]; the two
    accumulators are [totalAffectedRows] and [lastInsertID]. *)
Fixpoint writeQueries (req : Request) (savepoint : Z) (i : nat)
    (qs : list Query) (totalAffectedRows lastInsertID : Z) (s : State)
  : State * (error + Z * Z) :=
  match qs with
  | [] => (s, inr (totalAffectedRows, lastInsertID))
  | v :: rest =>
      match writeSingle v s with
      | (s1, inl ierr) =>
          (rollbackTo savepoint (with_pool (setFailed (pool_ s1) req) s1),
           inl (Wrapf ierr (ExecuteAtFailed i)))
      | (s1, inr res) =>
          writeQueries req savepoint (S i) rest
            (wrap_int64 (totalAffectedRows + RowsAffected res))
            (LastInsertId res) s1
      end
  end.

Definition write (req : Request) (s : State)
  : State * (error + QueryTracker * Response) :=
  let query := mkQueryTracker req None in
  let s0 := Lock s in
  let savepoint := getID s0 in
  match writeQueries req savepoint 0 (Queries (Request_Payload req)) 0 0 s0 with
  | (s1, inl err) => (Unlock s1, inl err)
  | (s1, inr (totalAffectedRows, lastInsertID)) =>
      let s2 := fst (setSavepoint s1) in
      let s3 := Unlock (with_pool (enqueue (pool_ s2) savepoint query) s2) in
      (s3,
       inr (query,
            mkResponse
              (mkSignedResponseHeader
                 (mkResponseHeader (Request_Header req) (nodeID s3)
                    (getLocalTime s3) 0 savepoint lastInsertID
                    totalAffectedRows))
              (mkResponsePayload [] [] [])))
  end.

(** ** Replaying one request *)

(** The loop of [replay]. *)
Fixpoint replayQueries (savepoint : Z) (i : nat) (qs : list Query) (s : State)
  : State * option error :=
  match qs with
  | [] => (s, None)
  | v :: rest =>
      match writeSingle v s with
      | (s1, inl ierr) =>
          (rollbackTo savepoint s1, Some (Wrapf ierr (ExecuteAtFailed i)))
      | (s1, inr _) => replayQueries savepoint (S i) rest s1
      end
  end.

Definition replay (req : Request) (resp : Response) (s : State)
  : State * option error :=
  let query := mkQueryTracker req (Some resp) in
  let s0 := Lock s in
  let savepoint := getID s0 in
  if negb (LogOffset (ResponseHeader_ (Response_Header resp)) =? savepoint)
  then
    (Unlock s0,
     Some (Wrapf ErrQueryConflict
             (LocalVsReplaying savepoint
                (LogOffset (ResponseHeader_ (Response_Header resp))))))
  else
    match replayQueries savepoint 0 (Queries (Request_Payload req)) s0 with
    | (s1, Some err) => (Unlock s1, Some err)
    | (s1, None) =>
        let s2 := fst (setSavepoint s1) in
        (Unlock (with_pool (enqueue (pool_ s2) savepoint query) s2), None)
    end.

(** ** Replaying a block *)

(** The inner loop of [ReplayBlockWithContext], over the queries of entry [i]
    of the block; [j] is the index of the head of [qs]. *)
Fixpoint replayBlockQueries (ty : QueryType) (lastsp : Z) (i j : nat)
    (qs : list Query) (s : State) : State * option error :=
  match qs with
  | [] => (s, None)
  | v :: rest =>
      match ty with
      | ReadQuery => replayBlockQueries ty lastsp i (S j) rest s
      | WriteQuery =>
          match writeSingle v s with
          | (s1, inl ierr) =>
              (rollbackTo lastsp s1,
               Some (Wrapf ierr (ExecuteAtBlockFailed i j)))
          | (s1, inr _) => replayBlockQueries ty lastsp i (S j) rest s1
          end
      | _ =>
          (rollbackTo lastsp s,
           Some (Wrapf ErrInvalidRequest (ReplayBlockAt i j)))
      end
  end.

(** The outer loop, over the entries of the block; it ends with an error or
    with the last value of [lastsp]. *)
Fixpoint replayBlockTxs (i : nat) (txs : list QueryAsTx) (lastsp : Z)
    (s : State) : State * (error + Z) :=
  match txs with
  | [] => (s, inr lastsp)
  | q :: rest =>
      let query :=
        mkQueryTracker (QueryAsTx_Request q)
          (Some (mkResponse (QueryAsTx_Response q)
                            (mkResponsePayload [] [] []))) in
      let lastsp := getID s in
      let offset := LogOffset (ResponseHeader_ (QueryAsTx_Response q)) in
      if offset >? lastsp then (s, inl ErrMissingParent)
      else if offset <? lastsp then
        if negb (match_ (pool_ s) offset (QueryAsTx_Request q))
        then (s, inl ErrQueryConflict)
        else replayBlockTxs (S i) rest lastsp s
      else
        match replayBlockQueries
                (QueryType_ (Request_Header (QueryAsTx_Request q))) lastsp i 0
                (Queries (Request_Payload (QueryAsTx_Request q))) s with
        | (s1, Some err) => (s1, inl err)
        | (s1, None) =>
            let s2 := fst (setSavepoint s1) in
            replayBlockTxs (S i) rest lastsp
              (with_pool (enqueue (pool_ s2) lastsp query) s2)
        end
  end.

Definition uncCommit (s : State) : State * option error :=
  let s1 := emit EvCommit s in
  match Commit (strg s) (trace s) with
  | Some err => (s1, Some err)
  | None => (with_hasSchemaChange 0 s1, None)
  end.

(** [s.unc, err = s.strg.Writer().Begin()]. *)
Definition beginUnc (s : State) : State * option error :=
  (emit EvBegin s, Begin (strg s) (trace s)).

Definition removeFailedReqs (reqs : list Request) (s : State) : State :=
  fold_left (fun s r => with_pool (removeFailed (pool_ s) r) s) reqs s.

(** What [ReplayBlockWithContext] does after its first loop. *)
Definition finishReplayBlock (block : Block) (lastsp : Z) (s : State)
  : State * option error :=
  let s1 := removeFailedReqs (FailedReqs block) s in
  let finish (s : State) : State * option error :=
    let s' := fst (setSavepoint s) in
    (Unlock (with_pool (truncate (pool_ s') lastsp) s'), None) in
  if matchLast (pool_ s1) lastsp then
    match uncCommit s1 with
    | (s2, Some err) => (Unlock s2, Some err)
    | (s2, None) =>
        match beginUnc s2 with
        | (s3, Some err) => (Unlock s3, Some err)
        | (s3, None) => finish (setNextTxID s3)
        end
    end
  else finish (setCommitPoint s1).

Definition ReplayBlockWithContext (block : Block) (s : State)
  : State * option error :=
  match replayBlockTxs 0 (QueryTxs block) 0 (Lock s) with
  | (s1, inl err) => (Unlock s1, Some err)
  | (s1, inr lastsp) => finishReplayBlock block lastsp s1
  end.

Definition ReplayBlock (block : Block) (s : State) : State * option error :=
  ReplayBlockWithContext block s.

(** ** Commit *)

Definition commit (s : State) : State * option error :=
  match uncCommit (Lock s) with
  | (s1, Some err) => (Unlock s1, Some err)
  | (s1, None) =>
      match beginUnc s1 with
      | (s2, Some err) => (Unlock s2, Some err)
      | (s2, None) =>
          let s3 := fst (setSavepoint (setNextTxID s2)) in
          (Unlock (with_pool newPool s3), None)
      end
  end.

Definition CommitExWithContext (s : State)
  : State * (error + list Request * list QueryTracker) :=
  match uncCommit (Lock s) with
  | (s1, Some err) => (Unlock s1, inl err)
  | (s1, None) =>
      match beginUnc s1 with
      | (s2, Some err) => (Unlock s2, inl err)
      | (s2, None) =>
          let s3 := fst (setSavepoint (setNextTxID s2)) in
          (Unlock (with_pool newPool s3),
           inr (failedList (pool_ s3), map snd (queries (pool_ s3))))
      end
  end.

Definition rollback (s : State) : State :=
  let s1 := Lock s in Unlock (rollbackTo (cmpoint s1) s1).

(** ** Entry points *)

Definition QueryWithContext (req : Request) (s : State)
  : State * (error + QueryTracker * Response) :=
  match QueryType_ (Request_Header req) with
  | ReadQuery => readTx req s
  | WriteQuery => write req s
  | _ => (s, inl ErrInvalidRequest)
  end.

Definition ReplayWithContext (req : Request) (resp : Response) (s : State)
  : State * option error :=
  match QueryType_ (Request_Header req) with
  | ReadQuery => (s, None)
  | WriteQuery => replay req resp s
  | _ => (s, Some ErrInvalidRequest)
  end.

Definition Replay (req : Request) (resp : Response) (s : State)
  : State * option error :=
  ReplayWithContext req resp s.

(** ** Runs of statements *)

(** [Applied s qs rs s']: starting in [s], [writeSingle] succeeds on each
    statement of [qs] in turn, with results [rs], and leaves [s']. *)
Inductive Applied : State -> list Query -> list Result -> State -> Prop :=
| Applied_nil : forall s, Applied s [] [] s
| Applied_cons : forall s q s1 r qs rs s2,
    writeSingle q s = (s1, inr r) ->
    Applied s1 qs rs s2 ->
    Applied s (q :: qs) (r :: rs) s2.

(** [Written s reqs s']: starting in [s], [write] succeeds on each request of
    [reqs] in turn and leaves [s']. *)
Inductive Written : State -> list Request -> State -> Prop :=
| Written_nil : forall s, Written s [] s
| Written_cons : forall s req s1 ref resp reqs s2,
    write req s = (s1, inr (ref, resp)) ->
    Written s1 reqs s2 ->
    Written s (req :: reqs) s2.

(** The exact sum of the affected rows of a run, and the last insert id a
    run leaves in [lastInsertID] (which starts at 0). *)
Definition sumRowsAffected (rs : list Result) : Z :=
  fold_right (fun r acc => RowsAffected r + acc) 0 rs.

Definition finalInsertId (rs : list Result) : Z :=
  last (map LastInsertId rs) 0.

Definition isOk {E A : Type} (r : E + A) : bool :=
  match r with inl _ => false | inr _ => true end.

(** The DDL flag the translator gives for a statement ([false] when the
    translation fails). *)
Definition containsDDL (s : State) (q : Query) : bool :=
  match convertQueryAndBuildArgs (strg s) (Pattern q) (Args q) with
  | inr (true, _, _) => true
  | _ => false
  end.

(** Whether the statement executes successfully in [s]: the translator
    accepts it and the storage, asked to execute the translated statement
    after the calls made so far, answers with a result. *)
Definition executes (s : State) (q : Query) : bool :=
  match convertQueryAndBuildArgs (strg s) (Pattern q) (Args q) with
  | inl _ => false
  | inr (_, pattern, args) =>
      isOk (ExecContext (strg s) (trace s) pattern args)
  end.

(** What a read sends for a statement: nothing when the statement does not
    translate, else one query, on [qer], for the translated statement. *)
Definition queryEvent (qer : querier) (g : Storage) (q : Query)
  : list Event :=
  match convertQueryAndBuildArgs g (Pattern q) (Args q) with
  | inl _ => []
  | inr (_, pattern, args) => [EvQuery qer pattern args]
  end.

(** What the translator and the storage answer to a statement that is read
    on [qer] after the calls [h]. *)
Definition answer (qer : querier) (g : Storage) (h : list Event) (q : Query)
  : error + ResultSet :=
  match convertQueryAndBuildArgs g (Pattern q) (Args q) with
  | inl err => inl err
  | inr (_, pattern, args) => QueryContext g h qer pattern args
  end.

(** Every statement of [qs], read in turn on [qer] after the calls [h], is
    answered with a result set. *)
Fixpoint allAnswered (qer : querier) (g : Storage) (h : list Event)
    (qs : list Query) : bool :=
  match qs with
  | [] => true
  | q :: rest =>
      isOk (answer qer g h q)
      && allAnswered qer g (h ++ queryEvent qer g q) rest
  end.

(** [ranQueries qer g h qs r evs]: the outcome [r] and the events [evs] are
    those of reading the statements [qs] in order on [qer], after the calls
    [h].  Either every statement is answered and each was sent, or the
    statements before the first one that is not answered were sent, that one
    was sent if it translates, and the error is its error, wrapped with its
    index. *)
Definition ranQueries {A : Type} (qer : querier) (g : Storage)
    (h : list Event) (qs : list Query) (r : error + A) (evs : list Event)
  : Prop :=
  match r with
  | inr _ =>
      allAnswered qer g h qs = true /\
      evs = flat_map (queryEvent qer g) qs
  | inl err =>
      exists pre q post ierr,
        qs = pre ++ q :: post /\
        allAnswered qer g h pre = true /\
        answer qer g (h ++ flat_map (queryEvent qer g) pre) q = inl ierr /\
        err = Wrapf ierr (QueryAtFailed (List.length pre)) /\
        evs = flat_map (queryEvent qer g) (pre ++ [q])
  end.

(** Events on the write transaction [s.unc]. *)
Definition onWriteTx (e : Event) : bool :=
  match e with
  | EvCommit | EvExec _ _ | EvSavepoint _ | EvRollbackTo _
  | EvQuery OnUnc _ _ => true
  | _ => false
  end.

Definition notCommit (e : Event) : Prop := e <> EvCommit.

(** The tracker that [ReplayBlockWithContext] builds for an entry of the
    block, and the offset the entry carries. *)
Definition blockTracker (q : QueryAsTx) : QueryTracker :=
  mkQueryTracker (QueryAsTx_Request q)
    (Some (mkResponse (QueryAsTx_Response q) (mkResponsePayload [] [] []))).

Definition txOffset (q : QueryAsTx) : Z :=
  LogOffset (ResponseHeader_ (QueryAsTx_Response q)).

Definition txType (q : QueryAsTx) : QueryType :=
  QueryType_ (Request_Header (QueryAsTx_Request q)).

Definition txQueries (q : QueryAsTx) : list Query :=
  Queries (Request_Payload (QueryAsTx_Request q)).

(** The state after an entry was applied at [lastsp]: a savepoint is issued
    at the counter and the entry's tracker is enqueued under [lastsp]. *)
Definition pooledAt (lastsp : Z) (q : QueryAsTx) (s : State) : State :=
  with_pool (enqueue (pool_ s) lastsp (blockTracker q))
            (emit (EvSavepoint (current s)) s).

Definition isQueryOn (qer : querier) (e : Event) : Prop :=
  exists pattern args, e = EvQuery qer pattern args.

(** ** A small storage to run the engine on *)

(** Statements are passed through unchanged; the empty statement does not
    translate; statements that start with CREATE are DDL. *)
Definition sampleConvert (pattern : string) (args : list NamedArg)
  : error + (bool * string * list NamedArg) :=
  if String.eqb pattern EmptyString
  then inl (ErrExternal "empty statement")
  else inr (String.prefix "CREATE" pattern, pattern, args).

(** Statements that mention the table [missing] fail; any other statement
    touches one row and returns the number of calls so far as insert id. *)
Definition mentionsMissing (pattern : string) : bool :=
  match String.index 0 "missing" pattern with
  | Some _ => true
  | None => false
  end.

Definition sampleExec (h : list Event) (pattern : string)
    (args : list NamedArg) : error + Result :=
  if mentionsMissing pattern then inl (ErrExternal "no such table: missing")
  else inr (mkResult 1 (Z.of_nat (List.length h))).

Definition sampleQuery (h : list Event) (qer : querier) (pattern : string)
    (args : list NamedArg) : error + ResultSet :=
  if mentionsMissing pattern then inl (ErrExternal "no such table: missing")
  else inr (mkResultSet ["count(*)"%string] ["INTEGER"%string]
                        [["0"%string]]).

Definition sampleStorage : Storage :=
  mkStorage sampleConvert sampleExec sampleQuery
            (fun _ => None) (fun _ => None) (fun _ => None)
            (fun h => Z.of_nat (List.length h)).

(** The state that [NewState] followed by [InitTx 100] builds. *)
Definition state100 : State :=
  match NewState "node-1" sampleStorage with
  | inr s => InitTx 100 s
  | inl _ => mkState sampleStorage [] newPool true "node-1" 0 0 0 0
  end.

Definition sampleHeader (ty : QueryType) (seq : Z) : RequestHeader :=
  mkRequestHeader ty "client-1" "db-1" 1 seq.

Definition sampleRequest (ty : QueryType) (seq : Z) (patterns : list string)
  : Request :=
  mkRequest (sampleHeader ty seq)
            (mkRequestPayload (map (fun p => mkQuery p []) patterns)).

Definition insertOne : Request :=
  sampleRequest WriteQuery 1 ["INSERT INTO t VALUES (1)"%string].

Definition insertTwo : Request :=
  sampleRequest WriteQuery 2
    ["INSERT INTO t VALUES (2)"%string; "INSERT INTO t VALUES (3)"%string].

Definition createTable : Request :=
  sampleRequest WriteQuery 3 ["CREATE TABLE u (x)"%string].

(** A write whose second statement fails. *)
Definition insertThenFail : Request :=
  sampleRequest WriteQuery 4
    ["INSERT INTO t VALUES (4)"%string; "INSERT INTO missing VALUES (5)"%string].

Definition selectCount : Request :=
  sampleRequest ReadQuery 5 ["SELECT count(*) FROM t"%string].

(** A read whose statement would fail if it were run. *)
Definition selectMissing : Request :=
  sampleRequest ReadQuery 6 ["SELECT count(*) FROM missing"%string].

Definition sampleResponse (req : Request) (logOffset : Z) : Response :=
  mkResponse
    (mkSignedResponseHeader
       (mkResponseHeader (Request_Header req) "node-2" 0 0 logOffset 0 0))
    (mkResponsePayload [] [] []).

Definition sampleTx (req : Request) (logOffset : Z) : QueryAsTx :=
  mkQueryAsTx req (Response_Header (sampleResponse req logOffset)).

(** A storage like [sampleStorage] whose commits fail, or whose begins fail
    after the first one, on demand; and the state that [NewState] followed by
    [InitTx 100] builds on it. *)
Definition flakyStorage (commitFails beginFails : bool) : Storage :=
  mkStorage sampleConvert sampleExec sampleQuery
    (fun h => match h with
              | [] => None
              | _ => if beginFails then Some (ErrExternal "cannot begin")
                     else None
              end)
    (fun _ => if commitFails then Some (ErrExternal "cannot commit")
              else None)
    (fun _ => None)
    (fun h => Z.of_nat (List.length h)).

Definition flakyState100 (commitFails beginFails : bool) : State :=
  match NewState "node-1" (flakyStorage commitFails beginFails) with
  | inr s => InitTx 100 s
  | inl _ =>
      mkState (flakyStorage commitFails beginFails) [] newPool true "node-1"
              0 0 0 0
  end.

(** ** The remaining entry points *)

Definition read (req : Request) (s : State)
  : State * (error + QueryTracker * Response) :=
  readWithContext req s.

Definition Query_ (req : Request) (s : State)
  : State * (error + QueryTracker * Response) :=
  QueryWithContext req s.

Definition CommitEx (s : State)
  : State * (error + list Request * list QueryTracker) :=
  CommitExWithContext s.



(** [Answered qer s qs rss s']: starting in [s], [readSingle] on [qer]
    succeeds on each statement of [qs] in turn, with result sets [rss], and
    leaves [s']. *)
Inductive Answered (qer : querier)
  : State -> list Query -> list ResultSet -> State -> Prop :=
| Answered_nil : forall s, Answered qer s [] [] s
| Answered_cons : forall s q s1 rs qs rss s2,
    readSingle qer q s = (s1, inr rs) ->
    Answered qer s1 qs rss s2 ->
    Answered qer s (q :: qs) (rs :: rss) s2.

(** Events that are neither on the mutex nor a commit or begin: what the
    statement loops send to the write transaction. *)
Definition isStatementEvent (e : Event) : bool :=
  match e with
  | EvExec _ _ | EvSavepoint _ | EvRollbackTo _ => true
  | _ => false
  end.

Definition isLockEvent (e : Event) : bool :=
  match e with
  | EvLock | EvUnlock => true
  | _ => false
  end.

(** The events of one critical section: a lock, events that are not on the
    mutex, an unlock. *)
Definition criticalSection (evs : list Event) : Prop :=
  exists mid,
    evs = EvLock :: mid ++ [EvUnlock] /\
    Forall (fun e => isLockEvent e = false) mid.

(** Case analysis on the translator and on the storage inside
    [writeSingle]. *)
Ltac split_writeSingle s q :=
  unfold writeSingle;
  destruct (convertQueryAndBuildArgs (strg s) (Pattern q) (Args q))
    as [?err | [[?ddl ?pattern] ?args]];
  [ | destruct (ExecContext (strg s) (trace s) _ _) as [?err | ?res];
      [ | try destruct ddl ] ].

(** * Properties *)

(** ** Machine arithmetic *)

Lemma wrap_uint64_small : forall z, uint64_range z -> wrap_uint64 z = z.
Proof. intros z Hz. apply Z.mod_small. exact Hz. Qed.

Lemma wrap_uint64_range : forall z, uint64_range (wrap_uint64 z).
Proof. intro z. apply Z.mod_pos_bound. reflexivity. Qed.

Lemma wrap_uint64_succ_neq :
  forall c, uint64_range c -> wrap_uint64 (c + 1) <> c.
Proof.
  unfold uint64_range, wrap_uint64. intros c Hc.
  destruct (Z.eq_dec c (2 ^ 64 - 1)) as [-> | Hne].
  - vm_compute. discriminate.
  - rewrite Z.mod_small; lia.
Qed.

Lemma wrap_uint64_add_succ :
  forall c n, wrap_uint64 (wrap_uint64 (c + 1) + n) = wrap_uint64 (c + (1 + n)).
Proof.
  intros c n. unfold wrap_uint64.
  rewrite Zplus_mod_idemp_l. f_equal. lia.
Qed.

Lemma wrap_int64_small : forall z, int64_range z -> wrap_int64 z = z.
Proof.
  unfold int64_range, wrap_int64. intros z Hz.
  change (2 ^ 63) with 9223372036854775808 in *.
  change (2 ^ 64) with 18446744073709551616.
  rewrite Z.mod_small; lia.
Qed.

Lemma wrap_int64_add_l :
  forall a b, wrap_int64 (wrap_int64 a + b) = wrap_int64 (a + b).
Proof.
  intros a b. unfold wrap_int64. f_equal.
  replace ((a + 2 ^ 63) mod 2 ^ 64 - 2 ^ 63 + b + 2 ^ 63)
    with ((a + 2 ^ 63) mod 2 ^ 64 + b) by lia.
  rewrite Zplus_mod_idemp_l. f_equal. lia.
Qed.

(** ** The pool *)

Lemma Request_eqb_eq : forall a b, Request_eqb a b = true <-> a = b.
Proof.
  intros a b. unfold Request_eqb.
  destruct (Request_eq_dec a b); split; congruence.
Qed.

Lemma Request_eqb_refl : forall a, Request_eqb a a = true.
Proof. intro a. apply Request_eqb_eq. reflexivity. Qed.

Lemma setFailed_In : forall p req, In req (failed (setFailed p req)).
Proof.
  intros p req. unfold setFailed.
  destruct (existsb (Request_eqb req) (failed p)) eqn:E.
  - apply existsb_exists in E. destruct E as [x [Hin Heq]].
    apply Request_eqb_eq in Heq. subst x. exact Hin.
  - simpl. apply in_or_app. right. left. reflexivity.
Qed.

Lemma setFailed_queries : forall p req, queries (setFailed p req) = queries p.
Proof.
  intros p req. unfold setFailed.
  destruct (existsb (Request_eqb req) (failed p)); reflexivity.
Qed.

Lemma setFailed_keeps : forall p req r,
  In r (failed p) -> In r (failed (setFailed p req)).
Proof.
  intros p req r Hin. unfold setFailed.
  destruct (existsb (Request_eqb req) (failed p)); [exact Hin |].
  simpl. apply in_or_app. left. exact Hin.
Qed.

(** ** One statement *)

Lemma writeSingle_frame : forall q s s' r,
  writeSingle q s = (s', r) ->
  strg s' = strg s /\ pool_ s' = pool_ s /\ nodeID s' = nodeID s /\
  origin s' = origin s /\ cmpoint s' = cmpoint s.
Proof.
  intros q s s' r. split_writeSingle s q; intro H; inversion H; subst;
    repeat split; reflexivity.
Qed.

Lemma writeSingle_ok_current : forall q s s' res,
  writeSingle q s = (s', inr res) ->
  current s' = wrap_uint64 (current s + 1).
Proof.
  intros q s s' res. split_writeSingle s q; intro H; inversion H; subst;
    reflexivity.
Qed.

Lemma writeSingle_trace : forall q s s' r,
  writeSingle q s = (s', r) ->
  exists evs, trace s' = trace s ++ evs /\
              Forall (fun e => exists p a, e = EvExec p a) evs.
Proof.
  intros q s s' r. split_writeSingle s q; intro H; inversion H; subst;
    try (exists []; rewrite app_nil_r; split; [reflexivity | constructor]);
    (eexists; split; [reflexivity | repeat constructor; eauto]).
Qed.

(** C9: [writeSingle] returns a result exactly when the statement executes
    successfully, that is when the translator accepts it and the storage
    executes the translated statement; the result is then the storage's.
    It advances the counter by one (in 64-bit unsigned arithmetic, and by
    exactly one below the largest value) if and only if the statement
    executes successfully; it stores 1 in the schema-change flag exactly
    when the statement executes successfully and the translator reported
    DDL; when the translation or the execution fails the counter and the
    flag keep their values, and the error returned is the translator's or
    the storage's.  A statement that does not translate is not sent to the
    storage; one that does is sent once, as translated. *)
Theorem writeSingle_counter_and_flag : forall q s,
  uint64_range (current s) ->
  let s' := fst (writeSingle q s) in
  let r := snd (writeSingle q s) in
  (isOk r = true <-> current s' = wrap_uint64 (current s + 1)) /\
  (isOk r = true -> current s + 1 < 2 ^ 64 -> current s' = current s + 1) /\
  (isOk r = false ->
   current s' = current s /\ hasSchemaChange s' = hasSchemaChange s) /\
  hasSchemaChange s' =
    (if isOk r && containsDDL s q then 1 else hasSchemaChange s) /\
  isOk r = executes s q /\
  (executes s q = true <-> current s' = wrap_uint64 (current s + 1)) /\
  (executes s q = true <-> current s' <> current s) /\
  hasSchemaChange s' =
    (if executes s q && containsDDL s q then 1 else hasSchemaChange s) /\
  match convertQueryAndBuildArgs (strg s) (Pattern q) (Args q) with
  | inl err => writeSingle q s = (s, inl err)
  | inr (_, pattern, args) =>
      r = ExecContext (strg s) (trace s) pattern args /\
      trace s' = trace s ++ [EvExec pattern args]
  end.
Proof.
  intros q s Hc. pose proof (wrap_uint64_succ_neq _ Hc) as Hne.
  assert (Hsmall : current s + 1 < 2 ^ 64 ->
                   wrap_uint64 (current s + 1) = current s + 1).
  { intro Hlt. apply wrap_uint64_small. unfold uint64_range in *. lia. }
  unfold containsDDL, executes. split_writeSingle s q; cbn;
    repeat split; intros; try congruence; auto.
Qed.

Lemma writeSingle_counter_and_flag_witness :
  let q := mkQuery "CREATE TABLE u (x)" [] in
  let bad := mkQuery "INSERT INTO missing VALUES (5)" [] in
  uint64_range (current state100) /\
  (executes state100 q = true /\
   snd (writeSingle q state100) = inr (mkResult 1 3) /\
   current (fst (writeSingle q state100)) = 101 /\
   hasSchemaChange (fst (writeSingle q state100)) = 1) /\
  (executes state100 bad = false /\
   snd (writeSingle bad state100) =
     inl (ErrExternal "no such table: missing") /\
   current (fst (writeSingle bad state100)) = 100 /\
   hasSchemaChange (fst (writeSingle bad state100)) = 0).
Proof.
  intros q bad.
  assert (H : uint64_range (current state100)).
  { vm_compute. split; [discriminate | reflexivity]. }
  split; [exact H |].
  destruct (writeSingle_counter_and_flag q state100 H)
    as (_ & _ & _ & _ & _ & He & _ & Hf & Hr).
  destruct (writeSingle_counter_and_flag bad state100 H)
    as (_ & _ & _ & _ & _ & He' & _ & Hf' & Hr').
  split.
  - split; [reflexivity |]. split; [apply Hr |].
    split; [apply He; reflexivity | rewrite Hf; reflexivity].
  - split; [reflexivity |]. split; [apply Hr' |].
    split; [| rewrite Hf'; reflexivity].
    destruct (Z.eq_dec (current (fst (writeSingle bad state100)))
                       (current state100)) as [E | E]; [exact E |].
    destruct (writeSingle_counter_and_flag bad state100 H)
      as (_ & _ & _ & _ & _ & _ & Hd & _).
    apply Hd in E. discriminate E.
Defined.

(** ** Runs of statements *)

Lemma Applied_frame : forall s qs rs s',
  Applied s qs rs s' ->
  strg s' = strg s /\ pool_ s' = pool_ s /\ nodeID s' = nodeID s /\
  origin s' = origin s /\ cmpoint s' = cmpoint s.
Proof.
  induction 1 as [s | s q s1 r qs rs s2 Hw _ IH].
  - repeat split; reflexivity.
  - apply writeSingle_frame in Hw.
    destruct Hw as (? & ? & ? & ? & ?), IH as (? & ? & ? & ? & ?).
    repeat split; congruence.
Qed.

Lemma Applied_length : forall s qs rs s',
  Applied s qs rs s' -> List.length rs = List.length qs.
Proof. induction 1; simpl; congruence. Qed.

Lemma Applied_current : forall s qs rs s',
  Applied s qs rs s' ->
  uint64_range (current s) ->
  current s' = wrap_uint64 (current s + Z.of_nat (List.length qs)).
Proof.
  induction 1 as [s | s q s1 r qs rs s2 Hw _ IH]; intro Hc.
  - rewrite Z.add_0_r. symmetry. apply wrap_uint64_small. exact Hc.
  - apply writeSingle_ok_current in Hw.
    rewrite IH by (rewrite Hw; apply wrap_uint64_range).
    rewrite Hw, wrap_uint64_add_succ. f_equal.
    change (List.length (q :: qs)) with (S (List.length qs)). lia.
Qed.

Lemma Applied_trace : forall s qs rs s',
  Applied s qs rs s' ->
  exists evs, trace s' = trace s ++ evs /\
              Forall (fun e => exists p a, e = EvExec p a) evs.
Proof.
  induction 1 as [s | s q s1 r qs rs s2 Hw _ IH].
  - exists []. rewrite app_nil_r. split; [reflexivity | constructor].
  - apply writeSingle_trace in Hw. destruct Hw as [e1 [H1 F1]].
    destruct IH as [e2 [H2 F2]]. exists (e1 ++ e2). split.
    + rewrite H2, H1, app_assoc. reflexivity.
    + apply Forall_app. split; assumption.
Qed.

Lemma last_cons_default : forall (A : Type) (l : list A) (x d : A),
  last (x :: l) d = last l x.
Proof.
  intros A l. induction l as [| y l IH]; intros x d.
  - reflexivity.
  - change (last (x :: y :: l) d) with (last (y :: l) d).
    rewrite !IH. reflexivity.
Qed.

Lemma fold_wrap_int64_sum : forall rs a,
  fold_left (fun acc r => wrap_int64 (acc + RowsAffected r)) rs (wrap_int64 a)
  = wrap_int64 (a + sumRowsAffected rs).
Proof.
  induction rs as [| r rs IH]; intro a; simpl.
  - rewrite Z.add_0_r. reflexivity.
  - rewrite wrap_int64_add_l, IH. f_equal. lia.
Qed.

Lemma fold_wrap_int64_sum0 : forall rs,
  fold_left (fun acc r => wrap_int64 (acc + RowsAffected r)) rs 0
  = wrap_int64 (sumRowsAffected rs).
Proof. intro rs. apply (fold_wrap_int64_sum rs 0). Qed.

(** A run that succeeds takes the loop of [write] to its end. *)
Lemma writeQueries_Applied : forall s qs rs s',
  Applied s qs rs s' ->
  forall req savepoint i total lastId,
    writeQueries req savepoint i qs total lastId s =
    (s', inr (fold_left (fun acc r => wrap_int64 (acc + RowsAffected r))
                        rs total,
              last (map LastInsertId rs) lastId)).
Proof.
  induction 1 as [s | s q s1 r qs rs s2 Hw _ IH]; intros.
  - reflexivity.
  - cbn [writeQueries]. rewrite Hw, IH. cbn [fold_left map].
    rewrite last_cons_default. reflexivity.
Qed.

(** A statement that fails after a run that succeeded stops the loop of
    [write] there. *)
Lemma writeQueries_failure : forall s pre rs s1,
  Applied s pre rs s1 ->
  forall q s2 ierr req savepoint i total lastId post,
    writeSingle q s1 = (s2, inl ierr) ->
    writeQueries req savepoint i (pre ++ q :: post) total lastId s =
    (rollbackTo savepoint (with_pool (setFailed (pool_ s2) req) s2),
     inl (Wrapf ierr (ExecuteAtFailed (i + List.length pre)))).
Proof.
  induction 1 as [s | s q0 s1 r qs rs s2 Hw _ IH]; intros; simpl.
  - rewrite H, Nat.add_0_r. reflexivity.
  - rewrite Hw. erewrite IH by eassumption.
    rewrite Nat.add_succ_r. reflexivity.
Qed.

(** ** The write path *)

(** C4: when a statement of a write request fails (in translation or in
    execution) after the statements before it succeeded, [write] returns the
    statement's error wrapped with the index of the statement; the counter is
    back at its value on entry and a rollback to that savepoint is issued;
    the request is in the pool's failed set; no tracker is enqueued. *)
Theorem write_failure_rolls_back : forall req s pre q post rs s1 s2 ierr,
  Queries (Request_Payload req) = pre ++ q :: post ->
  Applied (Lock s) pre rs s1 ->
  writeSingle q s1 = (s2, inl ierr) ->
  let s' := fst (write req s) in
  snd (write req s) = inl (Wrapf ierr (ExecuteAtFailed (List.length pre))) /\
  current s' = current s /\
  trace s' = trace s2 ++ [EvRollbackTo (current s); EvUnlock] /\
  pool_ s' = setFailed (pool_ s) req /\
  In req (failed (pool_ s')) /\
  queries (pool_ s') = queries (pool_ s).
Proof.
  intros req s pre q post rs s1 s2 ierr Hq Hpre Hfail.
  assert (Hp : pool_ s2 = pool_ s).
  { apply writeSingle_frame in Hfail. apply Applied_frame in Hpre.
    destruct Hfail as (_ & -> & _), Hpre as (_ & -> & _). reflexivity. }
  unfold write. rewrite Hq.
  rewrite (writeQueries_failure _ _ _ _ Hpre _ _ _ _ _ _ _ _ _ Hfail).
  cbn. rewrite Hp, <- app_assoc.
  repeat split; auto using setFailed_In, setFailed_queries.
Qed.

Lemma write_failure_rolls_back_witness :
  snd (write insertThenFail state100) =
    inl (Wrapf (ErrExternal "no such table: missing") (ExecuteAtFailed 1)) /\
  current (fst (write insertThenFail state100)) = 100 /\
  In insertThenFail (failed (pool_ (fst (write insertThenFail state100)))) /\
  queries (pool_ (fst (write insertThenFail state100))) = [].
Proof.
  pose (q1 := mkQuery "INSERT INTO t VALUES (4)" []).
  pose (q2 := mkQuery "INSERT INTO missing VALUES (5)" []).
  pose (s1 := fst (writeSingle q1 (Lock state100))).
  pose (s2 := fst (writeSingle q2 s1)).
  destruct (write_failure_rolls_back insertThenFail state100
              [q1] q2 [] [mkResult 1 4] s1 s2
              (ErrExternal "no such table: missing"))
    as (He & Hc & _ & _ & Hin & Hqs).
  - reflexivity.
  - eapply Applied_cons; [reflexivity | apply Applied_nil].
  - reflexivity.
  - repeat split; assumption.
Defined.

(** C5: when every statement of a write request succeeds, the response has
    the counter value on entry as LogOffset, the sum of the affected rows of
    the statements as affected rows (the 64-bit signed sum, which is the
    exact sum whenever that fits), the last insert id of the final statement
    (0 when there is none) and row count 0; the tracker is enqueued under
    that LogOffset, and a savepoint is issued at the advanced counter, which
    is the entry value plus the number of statements. *)
Theorem write_success_response : forall req s rs s1,
  uint64_range (current s) ->
  Applied (Lock s) (Queries (Request_Payload req)) rs s1 ->
  exists ref resp,
    let s' := fst (write req s) in
    let h := ResponseHeader_ (Response_Header resp) in
    snd (write req s) = inr (ref, resp) /\
    LogOffset h = current s /\
    AffectedRows h = wrap_int64 (sumRowsAffected rs) /\
    (int64_range (sumRowsAffected rs) -> AffectedRows h = sumRowsAffected rs) /\
    LastInsertID h = finalInsertId rs /\
    RowCount h = 0 /\
    Req ref = req /\
    pool_ s' = enqueue (pool_ s) (LogOffset h) ref /\
    current s' =
      wrap_uint64 (current s
                   + Z.of_nat (List.length (Queries (Request_Payload req)))) /\
    trace s' = trace s1 ++ [EvSavepoint (current s'); EvUnlock].
Proof.
  intros req s rs s1 Hc Hrun.
  pose proof (Applied_frame _ _ _ _ Hrun) as (_ & Hp & _).
  pose proof (Applied_current _ _ _ _ Hrun Hc) as Hcur.
  unfold write. rewrite (writeQueries_Applied _ _ _ _ Hrun).
  rewrite fold_wrap_int64_sum0.
  do 2 eexists. split; [reflexivity |]. cbn.
  rewrite Hp, <- app_assoc.
  repeat split; auto. intro Hr. apply wrap_int64_small. exact Hr.
Qed.

Lemma write_success_response_witness :
  exists ref resp,
    snd (write insertTwo state100) = inr (ref, resp) /\
    LogOffset (ResponseHeader_ (Response_Header resp)) = 100 /\
    AffectedRows (ResponseHeader_ (Response_Header resp)) = 2 /\
    current (fst (write insertTwo state100)) = 102.
Proof.
  pose (q1 := mkQuery "INSERT INTO t VALUES (2)" []).
  pose (q2 := mkQuery "INSERT INTO t VALUES (3)" []).
  pose (s1 := fst (writeSingle q1 (Lock state100))).
  pose (s2 := fst (writeSingle q2 s1)).
  destruct (write_success_response insertTwo state100
              [mkResult 1 4; mkResult 1 5] s2)
    as (ref & resp & He & Hl & Ha & _ & _ & _ & _ & _ & Hc & _).
  - vm_compute. split; [discriminate | reflexivity].
  - eapply Applied_cons; [reflexivity |].
    eapply Applied_cons; [reflexivity | apply Applied_nil].
  - exists ref, resp.
    split; [exact He |]. split; [rewrite Hl; reflexivity |].
    split; [rewrite Ha; reflexivity | rewrite Hc; reflexivity].
Defined.

(** ** Rolling back and writing again *)

Lemma write_ok_LogOffset : forall req s s' ref resp,
  write req s = (s', inr (ref, resp)) ->
  LogOffset (ResponseHeader_ (Response_Header resp)) = current s /\
  Req ref = req /\
  In (current s, ref) (queries (pool_ s')).
Proof.
  intros req s s' ref resp. unfold write.
  destruct (writeQueries req (getID (Lock s)) 0
              (Queries (Request_Payload req)) 0 0 (Lock s))
    as [s1 [err | [total lastId]]]; intro H; inversion H; subst.
  cbn. repeat split; try reflexivity.
  apply in_or_app. right. left. reflexivity.
Qed.

Lemma write_isOk : forall req s,
  isOk (snd (write req s)) = true ->
  exists ref resp, write req s = (fst (write req s), inr (ref, resp)).
Proof.
  intros req s. destruct (write req s) as [s' [err | [ref resp]]]; cbn.
  - discriminate.
  - intros _. exists ref, resp. reflexivity.
Qed.

(** C6: after any sequence of successful writes and a [rollbackTo k], the
    counter reads [k], and the next write that succeeds has [k] as the
    LogOffset of its response and is pooled under [k]. *)
Theorem rollbackTo_then_write : forall s0 ws s1 k req s2 ref resp,
  Written s0 ws s1 ->
  write req (rollbackTo k s1) = (s2, inr (ref, resp)) ->
  getID (rollbackTo k s1) = k /\
  LogOffset (ResponseHeader_ (Response_Header resp)) = k /\
  In (k, ref) (queries (pool_ s2)).
Proof.
  intros s0 ws s1 k req s2 ref resp _ Hw.
  apply write_ok_LogOffset in Hw. destruct Hw as (Hl & _ & Hin).
  repeat split; assumption.
Qed.

Lemma rollbackTo_then_write_witness :
  let s1 := fst (write insertTwo (fst (write insertOne state100))) in
  current s1 = 103 /\
  getID (rollbackTo 101 s1) = 101 /\
  exists ref resp,
    snd (write createTable (rollbackTo 101 s1)) = inr (ref, resp) /\
    LogOffset (ResponseHeader_ (Response_Header resp)) = 101.
Proof.
  intro s1. split; [reflexivity |].
  destruct (write_isOk insertOne state100 eq_refl) as (r1 & p1 & H1).
  destruct (write_isOk insertTwo (fst (write insertOne state100)) eq_refl)
    as (r2 & p2 & H2).
  destruct (write_isOk createTable (rollbackTo 101 s1) eq_refl)
    as (ref & resp & H3).
  destruct (rollbackTo_then_write state100 [insertOne; insertTwo] s1 101
              createTable (fst (write createTable (rollbackTo 101 s1)))
              ref resp) as (Hg & Hl & _).
  - eapply Written_cons; [exact H1 |].
    eapply Written_cons; [exact H2 | apply Written_nil].
  - exact H3.
  - split; [exact Hg |]. exists ref, resp.
    split; [rewrite H3; reflexivity | exact Hl].
Defined.

(** ** Replaying one request *)

Lemma replayQueries_Applied : forall s qs rs s',
  Applied s qs rs s' ->
  forall savepoint i, replayQueries savepoint i qs s = (s', None).
Proof.
  induction 1 as [s | s q s1 r qs rs s2 Hw _ IH]; intros; cbn.
  - reflexivity.
  - rewrite Hw. apply IH.
Qed.

Lemma replayQueries_failure : forall s pre rs s1,
  Applied s pre rs s1 ->
  forall q s2 ierr savepoint i post,
    writeSingle q s1 = (s2, inl ierr) ->
    replayQueries savepoint i (pre ++ q :: post) s =
    (rollbackTo savepoint s2,
     Some (Wrapf ierr (ExecuteAtFailed (i + List.length pre)))).
Proof.
  induction 1 as [s | s q0 s1 r qs rs s2 Hw _ IH]; intros; cbn.
  - rewrite H, Nat.add_0_r. reflexivity.
  - rewrite Hw. erewrite IH by eassumption.
    rewrite Nat.add_succ_r. reflexivity.
Qed.

(** C1, as the code has it: a single-request replay of a write request
    whose response offset differs from the counter, whether the counter is
    behind it or ahead of it, returns [ErrQueryConflict] wrapped with the two
    ids; the pool and the counter keep their values and nothing is sent to
    the storage. *)
Theorem replay_offset_mismatch : forall req resp s,
  QueryType_ (Request_Header req) = WriteQuery ->
  LogOffset (ResponseHeader_ (Response_Header resp)) <> current s ->
  let s' := fst (ReplayWithContext req resp s) in
  snd (ReplayWithContext req resp s) =
    Some (Wrapf ErrQueryConflict
            (LocalVsReplaying (current s)
               (LogOffset (ResponseHeader_ (Response_Header resp))))) /\
  pool_ s' = pool_ s /\
  current s' = current s /\
  trace s' = trace s ++ [EvLock; EvUnlock].
Proof.
  intros req resp s Hty Hne. unfold ReplayWithContext, replay.
  rewrite Hty. apply Z.eqb_neq in Hne. cbn. rewrite Hne. cbn.
  rewrite <- app_assoc. repeat split; reflexivity.
Qed.

Lemma replay_offset_mismatch_witness :
  snd (ReplayWithContext insertOne (sampleResponse insertOne 105) state100) =
    Some (Wrapf ErrQueryConflict (LocalVsReplaying 100 105)) /\
  current (fst (ReplayWithContext insertOne (sampleResponse insertOne 105)
                  state100)) = 100.
Proof.
  destruct (replay_offset_mismatch insertOne (sampleResponse insertOne 105)
              state100) as (He & _ & Hc & _).
  - reflexivity.
  - vm_compute. discriminate.
  - split; [exact He | exact Hc].
Defined.

(** C1, as stated, fails: with the counter at 100, replaying a write whose
    response carries offset 105 does not return [ErrMissingParent]; it
    returns a wrapped [ErrQueryConflict]. *)
Lemma replay_ahead_is_not_MissingParent :
  QueryType_ (Request_Header insertOne) = WriteQuery /\
  current state100 <
    LogOffset (ResponseHeader_
                 (Response_Header (sampleResponse insertOne 105))) /\
  option_map Cause
    (snd (Replay insertOne (sampleResponse insertOne 105) state100))
    = Some ErrQueryConflict /\
  option_map Cause
    (snd (Replay insertOne (sampleResponse insertOne 105) state100))
    <> Some ErrMissingParent.
Proof.
  split; [reflexivity |]. split; [reflexivity |].
  split; [reflexivity | vm_compute; discriminate].
Qed.

(** C8, as the code has it: in a single-request replay of a write request
    whose response offset equals the counter, a statement that fails after
    the statements before it succeeded makes the call return the statement's
    error wrapped with its index; the counter is back at its value on entry
    and a rollback to that savepoint is issued; the pool is left as it was:
    no tracker is enqueued and the failed set is not touched. *)
Theorem replay_failure_rolls_back :
  forall req resp s pre q post rs s1 s2 ierr,
  QueryType_ (Request_Header req) = WriteQuery ->
  LogOffset (ResponseHeader_ (Response_Header resp)) = current s ->
  Queries (Request_Payload req) = pre ++ q :: post ->
  Applied (Lock s) pre rs s1 ->
  writeSingle q s1 = (s2, inl ierr) ->
  let s' := fst (ReplayWithContext req resp s) in
  snd (ReplayWithContext req resp s) =
    Some (Wrapf ierr (ExecuteAtFailed (List.length pre))) /\
  current s' = current s /\
  trace s' = trace s2 ++ [EvRollbackTo (current s); EvUnlock] /\
  pool_ s' = pool_ s.
Proof.
  intros req resp s pre q post rs s1 s2 ierr Hty Hoff Hq Hpre Hfail.
  assert (Hp : pool_ s2 = pool_ s).
  { apply writeSingle_frame in Hfail. apply Applied_frame in Hpre.
    destruct Hfail as (_ & -> & _), Hpre as (_ & -> & _). reflexivity. }
  unfold ReplayWithContext, replay. rewrite Hty, Hq, Hoff. cbn.
  rewrite Z.eqb_refl. cbn.
  rewrite (replayQueries_failure _ _ _ _ Hpre _ _ _ _ _ _ Hfail).
  cbn. rewrite Hp, <- app_assoc. repeat split; reflexivity.
Qed.

Lemma replay_failure_rolls_back_witness :
  snd (ReplayWithContext insertThenFail (sampleResponse insertThenFail 100)
         state100) =
    Some (Wrapf (ErrExternal "no such table: missing") (ExecuteAtFailed 1)) /\
  pool_ (fst (ReplayWithContext insertThenFail
                (sampleResponse insertThenFail 100) state100))
    = pool_ state100.
Proof.
  pose (q1 := mkQuery "INSERT INTO t VALUES (4)" []).
  pose (q2 := mkQuery "INSERT INTO missing VALUES (5)" []).
  pose (s1 := fst (writeSingle q1 (Lock state100))).
  pose (s2 := fst (writeSingle q2 s1)).
  destruct (replay_failure_rolls_back insertThenFail
              (sampleResponse insertThenFail 100) state100
              [q1] q2 [] [mkResult 1 4] s1 s2
              (ErrExternal "no such table: missing"))
    as (He & _ & _ & Hp).
  - reflexivity.
  - reflexivity.
  - reflexivity.
  - eapply Applied_cons; [reflexivity | apply Applied_nil].
  - reflexivity.
  - split; [exact He | exact Hp].
Defined.

(** C8, as stated, fails: replaying, at its own offset, a write whose second
    statement fails returns the wrapped error and rolls back, but the request
    is not in the pool's failed set afterwards. *)
Lemma replay_failure_not_recorded :
  LogOffset (ResponseHeader_
               (Response_Header (sampleResponse insertThenFail 100)))
    = current state100 /\
  snd (Replay insertThenFail (sampleResponse insertThenFail 100) state100) =
    Some (Wrapf (ErrExternal "no such table: missing") (ExecuteAtFailed 1)) /\
  current (fst (Replay insertThenFail (sampleResponse insertThenFail 100)
                  state100)) = 100 /\
  ~ In insertThenFail
       (failed (pool_ (fst (Replay insertThenFail
                              (sampleResponse insertThenFail 100)
                              state100)))).
Proof.
  split; [reflexivity |]. split; [reflexivity |]. split; [reflexivity |].
  vm_compute. intros [].
Qed.

(** ** The read path *)

Lemma readSingle_frame : forall qer q s s' r,
  readSingle qer q s = (s', r) ->
  strg s' = strg s /\ pool_ s' = pool_ s /\ current s' = current s /\
  origin s' = origin s /\ cmpoint s' = cmpoint s /\
  hasSchemaChange s' = hasSchemaChange s /\
  exists evs, trace s' = trace s ++ evs /\ Forall (isQueryOn qer) evs /\
              (isOk r = true -> List.length evs = 1%nat).
Proof.
  intros qer q s s' r. unfold readSingle.
  destruct (convertQueryAndBuildArgs (strg s) (Pattern q) (Args q))
    as [err | [[ddl pattern] args]]; intro H; inversion H; subst; cbn;
    repeat split; try reflexivity.
  - exists []. rewrite app_nil_r. repeat split; try constructor.
    discriminate.
  - eexists. split; [reflexivity |]. split; [| reflexivity].
    constructor; [| constructor]. exists pattern, args. reflexivity.
Qed.

(** The loop over the statements of a read touches the counters, the flag
    and the pooled trackers in no way, and only sends queries to its
    querier: one per statement when every statement succeeds. *)
Lemma readQueries_frame : forall qer req qs i lst s s' r,
  readQueries qer req i qs lst s = (s', r) ->
  strg s' = strg s /\ queries (pool_ s') = queries (pool_ s) /\
  current s' = current s /\ origin s' = origin s /\
  cmpoint s' = cmpoint s /\ hasSchemaChange s' = hasSchemaChange s /\
  exists evs, trace s' = trace s ++ evs /\ Forall (isQueryOn qer) evs /\
              (isOk r = true -> List.length evs = List.length qs).
Proof.
  intros qer req qs. induction qs as [| v rest IH]; intros i lst s s' r; cbn.
  - intro H; inversion H; subst. repeat split; try reflexivity.
    exists []. rewrite app_nil_r. repeat split; constructor.
  - destruct (readSingle qer v s) as [s1 [ierr | rs]] eqn:E;
      apply readSingle_frame in E;
      destruct E as (E1 & E2 & E3 & E4 & E5 & E6 & evs1 & T1 & F1 & L1).
    + intro H; inversion H; subst; cbn.
      rewrite setFailed_queries, E2.
      repeat split; try assumption.
      exists evs1. repeat split; try assumption. discriminate.
    + intro H. apply IH in H.
      destruct H as (H1 & H2 & H3 & H4 & H5 & H6 & evs2 & T2 & F2 & L2).
      repeat split; try congruence.
      exists (evs1 ++ evs2). split; [| split].
      * rewrite T2, T1, app_assoc. reflexivity.
      * apply Forall_app. split; assumption.
      * intro Hok. rewrite length_app, L1, L2 by auto. reflexivity.
Qed.

Lemma readSingle_answer : forall qer q s,
  snd (readSingle qer q s) = answer qer (strg s) (trace s) q /\
  trace (fst (readSingle qer q s)) =
    trace s ++ queryEvent qer (strg s) q /\
  strg (fst (readSingle qer q s)) = strg s.
Proof.
  intros qer q s. unfold readSingle, answer, queryEvent.
  destruct (convertQueryAndBuildArgs (strg s) (Pattern q) (Args q))
    as [err | [[ddl pattern] args]]; cbn.
  - rewrite app_nil_r. repeat split.
  - repeat split.
Qed.

(** The loop over the statements of a read, in terms of what the translator
    and the storage answer: it stops at the first statement that is not
    answered, with that statement's error wrapped with its index and the
    request added to the failed set, and otherwise runs every statement and
    leaves the pool alone. *)
Lemma readQueries_outcome : forall qer req qs i lst s s' r,
  readQueries qer req i qs lst s = (s', r) ->
  match r with
  | inr _ =>
      allAnswered qer (strg s) (trace s) qs = true /\
      trace s' = trace s ++ flat_map (queryEvent qer (strg s)) qs /\
      pool_ s' = pool_ s
  | inl err =>
      exists pre q post ierr,
        qs = pre ++ q :: post /\
        allAnswered qer (strg s) (trace s) pre = true /\
        answer qer (strg s)
               (trace s ++ flat_map (queryEvent qer (strg s)) pre) q
          = inl ierr /\
        err = Wrapf ierr (QueryAtFailed (i + List.length pre)) /\
        trace s' =
          trace s ++ flat_map (queryEvent qer (strg s)) (pre ++ [q]) /\
        pool_ s' = setFailed (pool_ s) req
  end.
Proof.
  intros qer req qs.
  induction qs as [| v rest IH]; intros i lst s s' r; cbn [readQueries].
  - intro H; inversion H; subst. cbn. rewrite app_nil_r. repeat split.
  - destruct (readSingle_answer qer v s) as (Ha & Ht & Hs).
    pose proof (readSingle_frame qer v s) as Hfr.
    destruct (readSingle qer v s) as [s1 [ierr | rs]]; cbn in Ha, Ht, Hs;
      destruct (Hfr _ _ eq_refl) as (_ & Hp & _).
    + intro H; inversion H; subst.
      exists [], v, rest, ierr. cbn. rewrite !app_nil_r, Nat.add_0_r, Hp.
      repeat split; auto.
    + intro H. apply IH in H. rewrite Hs, Ht, Hp in H.
      destruct r as [err | rs'].
      * destruct H as (pre & q & post & ierr & Hq & Hall & Hans & He & Htr
                       & Hpool).
        exists (v :: pre), q, post, ierr. cbn [allAnswered flat_map app].
        rewrite <- Ha. cbn [isOk andb].
        rewrite <- !app_assoc in *.
        repeat split; try assumption.
        -- rewrite Hq. reflexivity.
        -- rewrite He. f_equal. f_equal. cbn. lia.
      * destruct H as (Hall & Htr & Hpool).
        cbn [allAnswered flat_map]. rewrite <- Ha. cbn [isOk andb].
        rewrite <- app_assoc in Htr. repeat split; assumption.
Qed.

(** All that the loop over the statements of a read does, for a loop that
    starts at index 0. *)
Lemma readQueries_run : forall qer req qs lst s s' r,
  readQueries qer req 0 qs lst s = (s', r) ->
  queries (pool_ s') = queries (pool_ s) /\
  current s' = current s /\ origin s' = origin s /\
  cmpoint s' = cmpoint s /\ hasSchemaChange s' = hasSchemaChange s /\
  exists evs,
    trace s' = trace s ++ evs /\ Forall (isQueryOn qer) evs /\
    (isOk r = true -> List.length evs = List.length qs) /\
    ranQueries qer (strg s) (trace s) qs r evs.
Proof.
  intros qer req qs lst s s' r H.
  pose proof (readQueries_frame _ _ _ _ _ _ _ _ H)
    as (_ & Hq & Hc & Ho & Hm & Hf & evs & Ht & Hall & Hlen).
  apply readQueries_outcome in H.
  repeat (split; [assumption |]).
  exists evs. repeat (split; [assumption |]).
  destruct r as [err | rs]; cbn.
  - destruct H as (pre & q & post & ierr & Hqs & Hans & Hfail & He & Htr & _).
    exists pre, q, post, ierr. repeat (split; [assumption |]).
    rewrite Ht in Htr. apply app_inv_head in Htr. exact Htr.
  - destruct H as (Hans & Htr & _). split; [exact Hans |].
    rewrite Ht in Htr. apply app_inv_head in Htr. exact Htr.
Qed.

(** C7: a read through [readTx] leaves the counters, the schema-change flag
    and the pooled trackers as they were, and the LogOffset of its response
    is the counter value on entry.  With the flag at 1 it takes the lock,
    issues a savepoint at the counter value, sends the request's queries, as
    translated and in order, to the write transaction, and, whether they
    succeed or not, rolls back to that savepoint before it unlocks.  With
    the flag not at 1 nothing is sent to the write transaction: the queries
    go, as translated and in order, to a transaction opened on the dirty
    reader, which is then rolled back and is never committed (when the dirty
    reader cannot open one, the read fails at once).  On either path the
    queries stop at the first one that the translator or the storage does
    not answer, and the read then fails with that answer, wrapped with the
    index of the query. *)
Theorem readTx_leaves_writer_state : forall req s,
  let s' := fst (readTx req s) in
  let r := snd (readTx req s) in
  current s' = current s /\ origin s' = origin s /\ cmpoint s' = cmpoint s /\
  hasSchemaChange s' = hasSchemaChange s /\
  queries (pool_ s') = queries (pool_ s) /\
  (forall ref resp,
     r = inr (ref, resp) ->
     LogOffset (ResponseHeader_ (Response_Header resp)) = current s) /\
  (hasSchemaChange s = 1 ->
   exists evs,
     trace s' = trace s ++ [EvLock; EvSavepoint (current s)] ++ evs
                        ++ [EvRollbackTo (current s); EvUnlock] /\
     Forall (isQueryOn OnUnc) evs /\
     (isOk r = true ->
      List.length evs = List.length (Queries (Request_Payload req))) /\
     ranQueries OnUnc (strg s)
       (trace s ++ [EvLock; EvSavepoint (current s)])
       (Queries (Request_Payload req)) r evs) /\
  (hasSchemaChange s <> 1 ->
   exists evs,
     trace s' = trace s ++ EvReaderBegin :: evs /\
     filter onWriteTx (EvReaderBegin :: evs) = [] /\
     match ReaderBegin (strg s) (trace s) with
     | Some ierr => evs = [] /\ r = inl (Wrapf ierr OpenTxFailed)
     | None =>
         exists qevs,
           evs = qevs ++ [EvReaderRollback] /\
           Forall (isQueryOn OnReaderTx) qevs /\
           (isOk r = true ->
            List.length qevs = List.length (Queries (Request_Payload req))) /\
           ranQueries OnReaderTx (strg s) (trace s ++ [EvReaderBegin])
             (Queries (Request_Payload req)) r qevs
     end).
Proof.
  intros req s. unfold readTx.
  destruct (hasSchemaChange s =? 1) eqn:Hflag.
  - destruct (readQueries OnUnc req 0 (Queries (Request_Payload req))
                noResultSet (fst (setSavepoint (Lock s))))
      as [s3 r3] eqn:E.
    apply readQueries_run in E.
    destruct E as (Hq & Hc & Ho & Hm & Hf & evs & Ht & Hall & Hlen & Hran).
    cbn in Hq, Hc, Ho, Hm, Hf, Ht.
    cbn [setSavepoint Lock emit getID fst trace strg] in Hran.
    rewrite <- app_assoc in Hran. cbn [app] in Hran.
    assert (Htrace :
      trace (Unlock (rollbackTo (getID (Lock s)) s3)) =
      trace s ++ [EvLock; EvSavepoint (current s)] ++ evs
              ++ [EvRollbackTo (current s); EvUnlock]).
    { cbn. rewrite Ht. rewrite <- !app_assoc. reflexivity. }
    destruct r3 as [err | rs]; cbn -[app ranQueries];
      (repeat split; try assumption; try reflexivity;
       [ intros ref resp H; inversion H; reflexivity
       | intros _; exists evs;
         split; [exact Htrace |]; split; [exact Hall |];
         split; [exact Hlen | exact Hran]
       | intro Hne; apply Z.eqb_eq in Hflag; contradiction ]).
  - apply Z.eqb_neq in Hflag.
    destruct (ReaderBegin (strg s) (trace s)) as [ierr |] eqn:Hb.
    + cbn. repeat split; try reflexivity.
      * intros ref resp H. discriminate H.
      * intro H1. contradiction.
      * intros _. exists []. repeat split; reflexivity.
    + destruct (readQueries OnReaderTx req 0 (Queries (Request_Payload req))
                  noResultSet (emit EvReaderBegin s))
        as [s2 r2] eqn:E.
      apply readQueries_run in E.
      destruct E as (Hq & Hc & Ho & Hm & Hf & evs & Ht & Hall & Hlen & Hran).
      cbn in Hq, Hc, Ho, Hm, Hf, Ht.
      cbn [emit trace strg] in Hran.
      assert (Hnone : filter onWriteTx evs = []).
      { clear - Hall. induction Hall as [| e l [p [a ->]] _ IH]; cbn; auto. }
      destruct r2 as [err | rs]; cbn -[app filter ranQueries];
        (repeat split; try assumption; try reflexivity;
         [ intros ref resp H; inversion H; reflexivity
         | intro H1; contradiction
         | intros _; exists (evs ++ [EvReaderRollback]);
           split; [rewrite Ht, <- !app_assoc; reflexivity |];
           split; [cbn; rewrite filter_app, Hnone; reflexivity |];
           exists evs; split; [reflexivity |]; split; [exact Hall |];
           split; [exact Hlen | exact Hran] ]).
Qed.

Lemma readTx_leaves_writer_state_witness :
  (let s := fst (write createTable state100) in
   hasSchemaChange s = 1 /\
   current (fst (readTx selectCount s)) = current s /\
   trace (fst (readTx selectCount s)) =
     trace s ++ [EvLock; EvSavepoint 101;
                 EvQuery OnUnc "SELECT count(*) FROM t" [];
                 EvRollbackTo 101; EvUnlock]) /\
  (hasSchemaChange state100 <> 1 /\
   trace (fst (readTx selectCount state100)) =
     trace state100 ++ [EvReaderBegin;
                        EvQuery OnReaderTx "SELECT count(*) FROM t" [];
                        EvReaderRollback]).
Proof.
  split.
  - intro s.
    destruct (readTx_leaves_writer_state selectCount s)
      as (Hc & _ & _ & _ & _ & _ & H1 & _).
    assert (Hflag : hasSchemaChange s = 1) by (vm_compute; reflexivity).
    split; [exact Hflag |]. split; [exact Hc |].
    destruct (H1 Hflag) as (evs & Ht & _ & _ & Hran).
    vm_compute in Hran. destruct Hran as (_ & Hev).
    rewrite Ht, Hev. reflexivity.
  - destruct (readTx_leaves_writer_state selectCount state100)
      as (_ & _ & _ & _ & _ & _ & _ & H0).
    assert (Hne : hasSchemaChange state100 <> 1)
      by (vm_compute; discriminate).
    split; [exact Hne |].
    destruct (H0 Hne) as (evs & Ht & _ & Hb).
    change (ReaderBegin (strg state100) (trace state100))
      with (@None error) in Hb.
    destruct Hb as (qevs & Hevs & _ & _ & Hran).
    vm_compute in Hran. destruct Hran as (_ & Hev).
    rewrite Ht, Hevs, Hev. reflexivity.
Defined.

(** ** Replaying a block: the reconciliation loop *)

(** Since [writeSingle] always returns, a run of statements either succeeds
    to its end or has a first statement that fails. *)
Lemma Applied_or_fails : forall qs s,
  (exists rs s', Applied s qs rs s') \/
  (exists pre q post rs s1 s2 ierr,
     qs = pre ++ q :: post /\ Applied s pre rs s1 /\
     writeSingle q s1 = (s2, inl ierr)).
Proof.
  induction qs as [| q qs IH]; intro s.
  - left. exists [], s. constructor.
  - destruct (writeSingle q s) as [s1 [ierr | r]] eqn:E.
    + right. exists [], q, qs, [], s, s1, ierr.
      repeat split; [constructor | exact E].
    + destruct (IH s1) as [(rs & s' & H) | H].
      * left. exists (r :: rs), s'. econstructor; eassumption.
      * destruct H as (pre & q' & post & rs & s2 & s3 & ierr & -> & Hp & Hf).
        right. exists (q :: pre), q', post, (r :: rs), s2, s3, ierr.
        repeat split; [econstructor; eassumption | exact Hf].
Qed.

Lemma replayBlockQueries_Read : forall qs lastsp i j s,
  replayBlockQueries ReadQuery lastsp i j qs s = (s, None).
Proof. induction qs as [| v rest IH]; intros; cbn; [reflexivity | apply IH]. Qed.

Lemma replayBlockQueries_Applied : forall s qs rs s',
  Applied s qs rs s' ->
  forall lastsp i j, replayBlockQueries WriteQuery lastsp i j qs s = (s', None).
Proof.
  induction 1 as [s | s q s1 r qs rs s2 Hw _ IH]; intros; cbn.
  - reflexivity.
  - rewrite Hw. apply IH.
Qed.

Lemma replayBlockQueries_failure : forall s pre rs s1,
  Applied s pre rs s1 ->
  forall q s2 ierr lastsp i j post,
    writeSingle q s1 = (s2, inl ierr) ->
    replayBlockQueries WriteQuery lastsp i j (pre ++ q :: post) s =
    (rollbackTo lastsp s2,
     Some (Wrapf ierr (ExecuteAtBlockFailed i (j + List.length pre)))).
Proof.
  induction 1 as [s | s q0 s1 r qs rs s2 Hw _ IH]; intros; cbn.
  - rewrite H, Nat.add_0_r. reflexivity.
  - rewrite Hw. erewrite IH by eassumption.
    rewrite Nat.add_succ_r. reflexivity.
Qed.

Lemma replayBlockQueries_trace : forall ty lastsp i qs j s s' r,
  replayBlockQueries ty lastsp i j qs s = (s', r) ->
  exists evs, trace s' = trace s ++ evs /\ Forall notCommit evs.
Proof.
  intros ty lastsp i qs. induction qs as [| v rest IH]; intros j s s' r; cbn.
  - intro H; inversion H; subst. exists []. rewrite app_nil_r.
    split; [reflexivity | constructor].
  - destruct ty.
    + apply IH.
    + destruct (writeSingle v s) as [s1 [ierr | res]] eqn:E;
        apply writeSingle_trace in E; destruct E as (e1 & T1 & F1);
        assert (N1 : Forall notCommit e1)
          by (eapply Forall_impl; [| exact F1];
              intros a (p & x & ->); discriminate).
      * intro H; inversion H; subst. exists (e1 ++ [EvRollbackTo lastsp]).
        split; [cbn; rewrite T1, app_assoc; reflexivity |].
        apply Forall_app. split; [exact N1 |].
        constructor; [discriminate | constructor].
      * intro H. apply IH in H. destruct H as (e2 & T2 & F2).
        exists (e1 ++ e2). split; [rewrite T2, T1, app_assoc; reflexivity |].
        apply Forall_app. split; assumption.
    + intro H; inversion H; subst. exists [EvRollbackTo lastsp].
      split; [reflexivity |]. constructor; [discriminate | constructor].
Qed.

Lemma replayBlockTxs_trace : forall txs i l s s' r,
  replayBlockTxs i txs l s = (s', r) ->
  exists evs, trace s' = trace s ++ evs /\ Forall notCommit evs.
Proof.
  induction txs as [| q rest IH]; intros i l s s' r; cbn.
  - intro H; inversion H; subst. exists []. rewrite app_nil_r.
    split; [reflexivity | constructor].
  - destruct (_ >? _).
    { intro H; inversion H; subst. exists []. rewrite app_nil_r.
      split; [reflexivity | constructor]. }
    destruct (_ <? _).
    { destruct (negb _).
      - intro H; inversion H; subst. exists []. rewrite app_nil_r.
        split; [reflexivity | constructor].
      - apply IH. }
    destruct (replayBlockQueries _ _ _ _ _ _) as [s1 [err |]] eqn:E;
      apply replayBlockQueries_trace in E; destruct E as (e1 & T1 & F1).
    + intro H; inversion H; subst. exists e1. split; assumption.
    + intro H. apply IH in H. destruct H as (e2 & T2 & F2). cbn in T2.
      exists (e1 ++ EvSavepoint (getID s1) :: e2). split.
      * rewrite T2, T1, <- !app_assoc. reflexivity.
      * apply Forall_app. split; [exact F1 |].
        constructor; [discriminate | exact F2].
Qed.

(** The loop on [done ++ more] goes on with [more] from where the loop on
    [done] ends, when that one ends without an error. *)
Lemma replayBlockTxs_app : forall done i l s se l1 more,
  replayBlockTxs i done l s = (se, inr l1) ->
  replayBlockTxs i (done ++ more) l s =
  replayBlockTxs (i + List.length done) more l1 se.
Proof.
  induction done as [| q rest IH]; intros i l s se l1 more; cbn.
  - intro H; inversion H; subst. rewrite Nat.add_0_r. reflexivity.
  - rewrite Nat.add_succ_r.
    destruct (_ >? _); [discriminate |].
    destruct (_ <? _).
    { destruct (negb _); [discriminate |]. intro H.
      apply (IH (S i) _ _ _ _ more H). }
    destruct (replayBlockQueries _ _ _ _ _ _) as [s1 [err |]];
      [discriminate |].
    intro H. apply (IH (S i) _ _ _ _ more H).
Qed.

(** When the loop ends with an error, so does the call, and the call has
    committed nothing. *)
Lemma ReplayBlock_loop_error : forall block s s1 err,
  replayBlockTxs 0 (QueryTxs block) 0 (Lock s) = (s1, inl err) ->
  ReplayBlockWithContext block s = (Unlock s1, Some err) /\
  exists evs, trace (Unlock s1) = trace s ++ evs /\ Forall notCommit evs.
Proof.
  intros block s s1 err H. unfold ReplayBlockWithContext. rewrite H.
  split; [reflexivity |].
  apply replayBlockTxs_trace in H. destruct H as (evs & T & F).
  exists (EvLock :: evs ++ [EvUnlock]). split.
  - cbn. rewrite T. cbn. rewrite <- !app_assoc. reflexivity.
  - constructor; [discriminate |]. apply Forall_app. split; [exact F |].
    constructor; [discriminate | constructor].
Qed.

(** What the loop does with the entry at its head, case by case. *)
Lemma replayBlockTxs_head_ahead : forall e rest i l s,
  txOffset e > current s ->
  replayBlockTxs i (e :: rest) l s = (s, inl ErrMissingParent).
Proof.
  intros e rest i l s H. cbn. unfold txOffset, getID in *.
  rewrite (proj2 (Z.gtb_gt _ _) H). reflexivity.
Qed.

Lemma replayBlockTxs_head_behind : forall e rest i l s,
  txOffset e < current s ->
  replayBlockTxs i (e :: rest) l s =
  if match_ (pool_ s) (txOffset e) (QueryAsTx_Request e)
  then replayBlockTxs (S i) rest (current s) s
  else (s, inl ErrQueryConflict).
Proof.
  intros e rest i l s H. cbn. unfold txOffset, getID in *.
  rewrite Z.gtb_ltb, (proj2 (Z.ltb_ge _ _)) by lia.
  rewrite (proj2 (Z.ltb_lt _ _) H).
  destruct (match_ _ _ _); reflexivity.
Qed.

Lemma replayBlockTxs_head_here : forall e rest i l s,
  txOffset e = current s ->
  replayBlockTxs i (e :: rest) l s =
  match replayBlockQueries (txType e) (current s) i 0 (txQueries e) s with
  | (s1, Some err) => (s1, inl err)
  | (s1, None) => replayBlockTxs (S i) rest (current s) (pooledAt (current s) e s1)
  end.
Proof.
  intros e rest i l s H. cbn. unfold txOffset, getID in *.
  rewrite Z.gtb_ltb, (proj2 (Z.ltb_ge _ _)) by lia.
  rewrite (proj2 (Z.ltb_ge _ _)) by lia. reflexivity.
Qed.

(** C2, as the code has it: for the entry [e] that the loop of
    [ReplayBlockWithContext] reaches in state [se] (after the entries [done]
    before it), with offset [O] and [S] the counter in [se]:
    if [O > S] the call returns [ErrMissingParent];
    if [O < S] and the pool has no tracker at [O] with an equal request the
    call returns [ErrQueryConflict], and otherwise the entry is skipped;
    if [O = S] and the request is a write, its statements are executed in
    order, and when they all succeed the loop goes on after a savepoint and
    with the entry pooled under [S], while a statement that fails rolls the
    state back to [S] and makes the whole call fail, with the statement's
    error wrapped with the two indices and without any commit. *)
Theorem ReplayBlock_entry : forall block s done e rest se l0,
  QueryTxs block = done ++ e :: rest ->
  replayBlockTxs 0 done 0 (Lock s) = (se, inr l0) ->
  let i := List.length done in
  (txOffset e > current se ->
   ReplayBlockWithContext block s = (Unlock se, Some ErrMissingParent)) /\
  (txOffset e < current se ->
   match_ (pool_ se) (txOffset e) (QueryAsTx_Request e) = false ->
   ReplayBlockWithContext block s = (Unlock se, Some ErrQueryConflict)) /\
  (txOffset e < current se ->
   match_ (pool_ se) (txOffset e) (QueryAsTx_Request e) = true ->
   replayBlockTxs 0 (QueryTxs block) 0 (Lock s) =
   replayBlockTxs (S i) rest (current se) se) /\
  (txOffset e = current se -> txType e = WriteQuery ->
   forall rs s1,
     Applied se (txQueries e) rs s1 ->
     replayBlockTxs 0 (QueryTxs block) 0 (Lock s) =
     replayBlockTxs (S i) rest (current se) (pooledAt (current se) e s1)) /\
  (txOffset e = current se -> txType e = WriteQuery ->
   forall pre q post rs s1 s2 ierr,
     txQueries e = pre ++ q :: post ->
     Applied se pre rs s1 ->
     writeSingle q s1 = (s2, inl ierr) ->
     ReplayBlockWithContext block s =
       (Unlock (rollbackTo (current se) s2),
        Some (Wrapf ierr (ExecuteAtBlockFailed i (List.length pre)))) /\
     current (fst (ReplayBlockWithContext block s)) = current se /\
     exists evs,
       trace (fst (ReplayBlockWithContext block s)) = trace s ++ evs /\
       Forall notCommit evs).
Proof.
  intros block s done e rest se l0 Hb Hdone i.
  pose proof (replayBlockTxs_app _ _ _ _ _ _ (e :: rest) Hdone) as Happ.
  rewrite <- Hb in Happ. cbn [Nat.add] in Happ. fold i in Happ.
  split; [| split; [| split; [| split]]].
  - intro HO. unfold ReplayBlockWithContext.
    rewrite Happ, replayBlockTxs_head_ahead by exact HO. reflexivity.
  - intros HO Hm. unfold ReplayBlockWithContext.
    rewrite Happ, replayBlockTxs_head_behind, Hm by exact HO. reflexivity.
  - intros HO Hm.
    rewrite Happ, replayBlockTxs_head_behind, Hm by exact HO. reflexivity.
  - intros HO Hty rs s1 Hrun.
    rewrite Happ, replayBlockTxs_head_here, Hty by exact HO.
    rewrite (replayBlockQueries_Applied _ _ _ _ Hrun). reflexivity.
  - intros HO Hty pre q post rs s1 s2 ierr Hq Hpre Hfail.
    assert (Hloop : replayBlockTxs 0 (QueryTxs block) 0 (Lock s) =
                    (rollbackTo (current se) s2,
                     inl (Wrapf ierr
                            (ExecuteAtBlockFailed i (List.length pre))))).
    { rewrite Happ, replayBlockTxs_head_here, Hty, Hq by exact HO.
      rewrite (replayBlockQueries_failure _ _ _ _ Hpre _ _ _ _ _ _ _ Hfail).
      reflexivity. }
    apply ReplayBlock_loop_error in Hloop. destruct Hloop as [Hcall Hev].
    rewrite Hcall. split; [reflexivity |]. split; [reflexivity | exact Hev].
Qed.

(** Two blocks to run the loop on: one whose entry is ahead of the counter,
    and one with a pooled write followed by a write whose second statement
    fails. *)
Lemma ReplayBlock_entry_witness :
  snd (ReplayBlockWithContext (mkBlock [sampleTx insertOne 105] []) state100)
    = Some ErrMissingParent /\
  (let s := fst (write insertOne state100) in
   let block :=
     mkBlock [sampleTx insertOne 100; sampleTx insertThenFail 101] [] in
   snd (ReplayBlockWithContext block s) =
     Some (Wrapf (ErrExternal "no such table: missing")
                 (ExecuteAtBlockFailed 1 1)) /\
   current (fst (ReplayBlockWithContext block s)) = 101).
Proof.
  split.
  - destruct (ReplayBlock_entry (mkBlock [sampleTx insertOne 105] [])
                state100 [] (sampleTx insertOne 105) [] (Lock state100) 0
                eq_refl eq_refl) as (H & _).
    rewrite H; reflexivity.
  - intros s block.
    pose (q1 := mkQuery "INSERT INTO t VALUES (4)" []).
    pose (q2 := mkQuery "INSERT INTO missing VALUES (5)" []).
    pose (s1 := fst (writeSingle q1 (Lock s))).
    pose (s2 := fst (writeSingle q2 s1)).
    destruct (ReplayBlock_entry block s [sampleTx insertOne 100]
                (sampleTx insertThenFail 101) [] (Lock s) 101
                eq_refl eq_refl) as (_ & _ & _ & _ & H).
    destruct (H eq_refl eq_refl [q1] q2 [] [mkResult 1 8] s1 s2
                (ErrExternal "no such table: missing")) as (He & Hc & _).
    + reflexivity.
    + eapply Applied_cons; [reflexivity | apply Applied_nil].
    + reflexivity.
    + rewrite He. split; [reflexivity | exact Hc].
Defined.

(** C2, as stated, fails: an entry at the counter's offset whose request is
    a read has a statement, and that statement fails when it is run, yet
    the call succeeds and sends the storage no statement of the entry, only
    the savepoints, the commit and the begin of the end of the call. *)
Lemma ReplayBlock_read_statements_not_run :
  let e := sampleTx selectMissing 100 in
  txOffset e = current (Lock state100) /\
  txQueries e = [mkQuery "SELECT count(*) FROM missing" []] /\
  isOk (snd (writeSingle (mkQuery "SELECT count(*) FROM missing" [])
                         (Lock state100))) = false /\
  snd (ReplayBlockWithContext (mkBlock [e] []) state100) = None /\
  trace (fst (ReplayBlockWithContext (mkBlock [e] []) state100)) =
    trace state100
      ++ [EvLock; EvSavepoint 100; EvCommit; EvBegin; EvSavepoint 100;
          EvUnlock].
Proof.
  intro e. split; [reflexivity |]. split; [reflexivity |].
  split; [reflexivity |]. split; reflexivity.
Qed.

(** C10: an entry of the block whose request is a read and whose offset is
    the counter's value has none of its statements run: the loop goes on
    from a state that differs from the one it found only by a savepoint,
    issued at the unchanged counter, and by the entry's tracker, enqueued
    in the pool under that same offset. *)
Theorem ReplayBlock_pools_read_entry : forall block s done e rest se l0,
  QueryTxs block = done ++ e :: rest ->
  replayBlockTxs 0 done 0 (Lock s) = (se, inr l0) ->
  txType e = ReadQuery ->
  txOffset e = current se ->
  let s1 := pooledAt (current se) e se in
  replayBlockTxs 0 (QueryTxs block) 0 (Lock s) =
    replayBlockTxs (S (List.length done)) rest (current se) s1 /\
  trace s1 = trace se ++ [EvSavepoint (current se)] /\
  current s1 = current se /\
  hasSchemaChange s1 = hasSchemaChange se /\
  pool_ s1 = enqueue (pool_ se) (current se) (blockTracker e) /\
  In (current se, blockTracker e) (queries (pool_ s1)).
Proof.
  intros block s done e rest se l0 Hb Hdone Hty HO s1.
  pose proof (replayBlockTxs_app _ _ _ _ _ _ (e :: rest) Hdone) as Happ.
  rewrite <- Hb in Happ. cbn [Nat.add] in Happ.
  split.
  - rewrite Happ, replayBlockTxs_head_here, Hty by exact HO.
    rewrite replayBlockQueries_Read. reflexivity.
  - repeat split. cbn. apply in_or_app. right. left. reflexivity.
Qed.

Lemma ReplayBlock_pools_read_entry_witness :
  let e := sampleTx selectMissing 100 in
  let s1 := pooledAt 100 e (Lock state100) in
  replayBlockTxs 0 [e] 0 (Lock state100) = (s1, inr 100) /\
  trace s1 = trace state100 ++ [EvLock; EvSavepoint 100] /\
  current s1 = 100 /\
  queries (pool_ s1) = [(100, blockTracker e)].
Proof.
  intros e s1.
  destruct (ReplayBlock_pools_read_entry (mkBlock [e] []) state100 [] e []
              (Lock state100) 0 eq_refl eq_refl eq_refl eq_refl)
    as (Hloop & _ & Hc & _ & Hp & _).
  split; [exact Hloop |]. split; [reflexivity |].
  split; [exact Hc | exact (f_equal queries Hp)].
Defined.

(** ** Replaying a block: the end of the call *)

Lemma removeFailedReqs_frame : forall reqs s,
  strg (removeFailedReqs reqs s) = strg s /\
  trace (removeFailedReqs reqs s) = trace s /\
  origin (removeFailedReqs reqs s) = origin s /\
  cmpoint (removeFailedReqs reqs s) = cmpoint s /\
  current (removeFailedReqs reqs s) = current s /\
  hasSchemaChange (removeFailedReqs reqs s) = hasSchemaChange s /\
  queries (pool_ (removeFailedReqs reqs s)) = queries (pool_ s).
Proof.
  unfold removeFailedReqs.
  induction reqs as [| r reqs IH]; intro s; cbn.
  - repeat split; reflexivity.
  - destruct (IH (with_pool (removeFailed (pool_ s) r) s))
      as (H1 & H2 & H3 & H4 & H5 & H6 & H7).
    repeat split; assumption.
Qed.









(** * Further properties of the engine *)

(** ** Start-up *)

(** X1: [NewState] fails exactly when the storage cannot begin a
    transaction; the state it returns otherwise, once [InitTx id] has run,
    has origin, commit point and counter at [id], an empty pool, the flag
    down, and savepoints 0 and [id] issued after the begin; the first write
    that succeeds on it has LogOffset [id]. *)
Theorem NewState_InitTx : forall node g id,
  match NewState node g with
  | inl err => Begin g [] = Some err
  | inr s0 =>
      Begin g [] = None /\
      let s := InitTx id s0 in
      origin s = id /\ cmpoint s = id /\ current s = id /\
      hasSchemaChange s = 0 /\ pool_ s = newPool /\ closed s = false /\
      trace s = [EvBegin; EvSavepoint 0; EvSavepoint id] /\
      forall req s' ref resp,
        write req s = (s', inr (ref, resp)) ->
        LogOffset (ResponseHeader_ (Response_Header resp)) = id
  end.
Proof.
  intros node g id. unfold NewState.
  destruct (Begin g []) as [err |]; [reflexivity |].
  split; [reflexivity |]. cbn. repeat split.
  intros req s' ref resp H. apply write_ok_LogOffset in H. apply H.
Qed.

(** ** The write path, as a whole *)

Lemma writeQueries_ok_inv : forall req savepoint qs i total lastId s s' acc,
  writeQueries req savepoint i qs total lastId s = (s', inr acc) ->
  exists rs, Applied s qs rs s'.
Proof.
  intros req savepoint qs.
  induction qs as [| v rest IH]; intros i total lastId s s' acc; cbn.
  - intro H; inversion H; subst. exists []. constructor.
  - destruct (writeSingle v s) as [s1 [ierr | res]] eqn:E; [discriminate |].
    intro H. apply IH in H. destruct H as [rs H].
    exists (res :: rs). econstructor; eassumption.
Qed.

Lemma writeQueries_error_inv :
  forall req savepoint qs i total lastId s s' err,
  writeQueries req savepoint i qs total lastId s = (s', inl err) ->
  exists pre q post rs s1 s2 ierr,
    qs = pre ++ q :: post /\ Applied s pre rs s1 /\
    writeSingle q s1 = (s2, inl ierr) /\
    err = Wrapf ierr (ExecuteAtFailed (i + List.length pre)).
Proof.
  intros req savepoint qs i total lastId s s' err H.
  destruct (Applied_or_fails qs s) as [(rs & s1 & Hrun) | Hfail].
  - rewrite (writeQueries_Applied _ _ _ _ Hrun) in H. discriminate.
  - destruct Hfail as (pre & q & post & rs & s1 & s2 & ierr & Hq & Hp & Hf).
    exists pre, q, post, rs, s1, s2, ierr. repeat split; try assumption.
    rewrite Hq, (writeQueries_failure _ _ _ _ Hp _ _ _ _ _ _ _ _ _ Hf) in H.
    inversion H. reflexivity.
Qed.

(** X2: [write] has no way to fail other than through a statement: it
    returns a response exactly when every statement of the request is
    translated and executed successfully, and an error exactly when some
    statement fails after the ones before it succeeded; that error is the
    statement's, wrapped with the statement's index. *)
Theorem write_succeeds_iff_statements_do : forall req s,
  (isOk (snd (write req s)) = true <->
   exists rs s1, Applied (Lock s) (Queries (Request_Payload req)) rs s1) /\
  (forall err,
     snd (write req s) = inl err <->
     exists pre q post rs s1 s2 ierr,
       Queries (Request_Payload req) = pre ++ q :: post /\
       Applied (Lock s) pre rs s1 /\
       writeSingle q s1 = (s2, inl ierr) /\
       err = Wrapf ierr (ExecuteAtFailed (List.length pre))).
Proof.
  intros req s. split; [split | intro err; split].
  - unfold write.
    destruct (writeQueries req (getID (Lock s)) 0
                (Queries (Request_Payload req)) 0 0 (Lock s))
      as [s1 [e | [t l]]] eqn:E; cbn; [discriminate |].
    intros _. apply writeQueries_ok_inv in E. destruct E as [rs E].
    exists rs, s1. exact E.
  - intros (rs & s1 & Hrun). unfold write.
    rewrite (writeQueries_Applied _ _ _ _ Hrun). reflexivity.
  - unfold write.
    destruct (writeQueries req (getID (Lock s)) 0
                (Queries (Request_Payload req)) 0 0 (Lock s))
      as [s1 [e | [t l]]] eqn:E; cbn; [| discriminate].
    intro H; inversion H; subst. apply writeQueries_error_inv in E.
    exact E.
  - intros (pre & q & post & rs & s1 & s2 & ierr & Hq & Hp & Hf & ->).
    unfold write.
    rewrite Hq, (writeQueries_failure _ _ _ _ Hp _ _ _ _ _ _ _ _ _ Hf).
    reflexivity.
Qed.

Lemma write_ok_current : forall req s s' ref resp,
  write req s = (s', inr (ref, resp)) ->
  uint64_range (current s) ->
  current s' =
  wrap_uint64 (current s
               + Z.of_nat (List.length (Queries (Request_Payload req)))).
Proof.
  intros req s s' ref resp H Hc. unfold write in H.
  destruct (writeQueries req (getID (Lock s)) 0
              (Queries (Request_Payload req)) 0 0 (Lock s))
    as [s1 [e | [t l]]] eqn:E; [discriminate |].
  inversion H; subst. cbn.
  apply writeQueries_ok_inv in E. destruct E as [rs E].
  apply (Applied_current _ _ _ _ E Hc).
Qed.

(** X3: of two writes that succeed one after the other, the second has as
    LogOffset the first one's plus the number of statements of the first
    request (in 64-bit unsigned arithmetic).  Short of a wrap-around the
    offsets never decrease, and they increase strictly unless the first
    request has no statement, in which case both writes carry the same
    offset. *)
Theorem successive_writes_offsets :
  forall reqA reqB s sA sB refA respA refB respB,
  uint64_range (current s) ->
  write reqA s = (sA, inr (refA, respA)) ->
  write reqB sA = (sB, inr (refB, respB)) ->
  let offA := LogOffset (ResponseHeader_ (Response_Header respA)) in
  let offB := LogOffset (ResponseHeader_ (Response_Header respB)) in
  let n := Z.of_nat (List.length (Queries (Request_Payload reqA))) in
  offB = wrap_uint64 (offA + n) /\
  (offA + n < 2 ^ 64 ->
   offB = offA + n /\
   (Queries (Request_Payload reqA) <> [] -> offA < offB) /\
   (Queries (Request_Payload reqA) = [] -> offA = offB)).
Proof.
  intros reqA reqB s sA sB refA respA refB respB Hc HA HB offA offB n.
  pose proof (write_ok_current _ _ _ _ _ HA Hc) as HcA.
  apply write_ok_LogOffset in HA. apply write_ok_LogOffset in HB.
  destruct HA as (HA & _), HB as (HB & _).
  subst offA offB. rewrite HA, HB, HcA. fold n.
  split; [reflexivity |]. intro Hlt.
  assert (Hn : 0 <= n) by (subst n; lia).
  rewrite wrap_uint64_small by (unfold uint64_range in *; lia).
  split; [reflexivity |]. split; intro Hq.
  - destruct (Queries (Request_Payload reqA)); [congruence |].
    subst n. cbn [List.length]. lia.
  - subst n. rewrite Hq. cbn. lia.
Qed.

Lemma successive_writes_offsets_witness :
  exists sA refA respA sB refB respB,
    write insertTwo state100 = (sA, inr (refA, respA)) /\
    write insertOne sA = (sB, inr (refB, respB)) /\
    LogOffset (ResponseHeader_ (Response_Header respA)) = 100 /\
    LogOffset (ResponseHeader_ (Response_Header respB)) = 100 + 2.
Proof.
  destruct (write_isOk insertTwo state100 eq_refl) as (refA & respA & HA).
  destruct (write_isOk insertOne (fst (write insertTwo state100)) eq_refl)
    as (refB & respB & HB).
  assert (Hc : uint64_range (current state100)).
  { vm_compute. split; [discriminate | reflexivity]. }
  destruct (successive_writes_offsets insertTwo insertOne state100 _ _
              refA respA refB respB Hc HA HB) as (_ & Hlt).
  destruct (write_ok_LogOffset _ _ _ _ _ HA) as (HoA & _).
  assert (HA100 : LogOffset (ResponseHeader_ (Response_Header respA)) = 100)
    by (rewrite HoA; reflexivity).
  do 6 eexists. split; [exact HA |]. split; [exact HB |].
  split; [exact HA100 |].
  rewrite <- HA100. apply Hlt. rewrite HA100. vm_compute. reflexivity.
Defined.

Lemma NewState_InitTx_witness :
  exists s0 ref resp,
    NewState "node-1" sampleStorage = inr s0 /\
    snd (write insertOne (InitTx 7 s0)) = inr (ref, resp) /\
    LogOffset (ResponseHeader_ (Response_Header resp)) = 7.
Proof.
  pose proof (NewState_InitTx "node-1" sampleStorage 7) as H.
  destruct (NewState "node-1" sampleStorage) as [err | s0] eqn:E;
    [vm_compute in E; discriminate |].
  destruct H as (_ & _ & _ & _ & _ & _ & _ & _ & Hw).
  assert (Es : s0 = fst (setSavepoint
                           (mkState sampleStorage [EvBegin] newPool false
                                    "node-1" 0 0 0 0)))
    by (vm_compute in E; inversion E; reflexivity).
  destruct (write_isOk insertOne (InitTx 7 s0)) as (ref & resp & Hr).
  { rewrite Es. vm_compute. reflexivity. }
  exists s0, ref, resp. split; [reflexivity |].
  split; [rewrite Hr; reflexivity |].
  apply (Hw insertOne _ ref resp Hr).
Defined.

(** ** What is sent to the storage, and under which lock *)

Lemma statement_not_lock : forall e,
  isStatementEvent e = true -> isLockEvent e = false.
Proof. intros [] H; try reflexivity; discriminate H. Qed.

Lemma writeSingle_events : forall q s s' r,
  writeSingle q s = (s', r) ->
  exists evs, trace s' = trace s ++ evs /\
              Forall (fun e => isStatementEvent e = true) evs.
Proof.
  intros q s s' r H. apply writeSingle_trace in H.
  destruct H as (evs & T & F). exists evs. split; [exact T |].
  eapply Forall_impl; [| exact F]. intros a (p & x & ->). reflexivity.
Qed.

Lemma writeQueries_events : forall req savepoint qs i total lastId s s' r,
  writeQueries req savepoint i qs total lastId s = (s', r) ->
  exists evs, trace s' = trace s ++ evs /\
              Forall (fun e => isStatementEvent e = true) evs.
Proof.
  intros req savepoint qs.
  induction qs as [| v rest IH]; intros i total lastId s s' r; cbn.
  - intro H; inversion H; subst. exists []. rewrite app_nil_r.
    split; [reflexivity | constructor].
  - destruct (writeSingle v s) as [s1 [ierr | res]] eqn:E;
      apply writeSingle_events in E; destruct E as (e1 & T1 & F1).
    + intro H; inversion H; subst. exists (e1 ++ [EvRollbackTo savepoint]).
      split; [cbn; rewrite T1, app_assoc; reflexivity |].
      apply Forall_app. split; [exact F1 | repeat constructor].
    + intro H. apply IH in H. destruct H as (e2 & T2 & F2).
      exists (e1 ++ e2). split; [rewrite T2, T1, app_assoc; reflexivity |].
      apply Forall_app. split; assumption.
Qed.

Lemma replayQueries_events : forall savepoint qs i s s' r,
  replayQueries savepoint i qs s = (s', r) ->
  exists evs, trace s' = trace s ++ evs /\
              Forall (fun e => isStatementEvent e = true) evs.
Proof.
  intros savepoint qs. induction qs as [| v rest IH]; intros i s s' r; cbn.
  - intro H; inversion H; subst. exists []. rewrite app_nil_r.
    split; [reflexivity | constructor].
  - destruct (writeSingle v s) as [s1 [ierr | res]] eqn:E;
      apply writeSingle_events in E; destruct E as (e1 & T1 & F1).
    + intro H; inversion H; subst. exists (e1 ++ [EvRollbackTo savepoint]).
      split; [cbn; rewrite T1, app_assoc; reflexivity |].
      apply Forall_app. split; [exact F1 | repeat constructor].
    + intro H. apply IH in H. destruct H as (e2 & T2 & F2).
      exists (e1 ++ e2). split; [rewrite T2, T1, app_assoc; reflexivity |].
      apply Forall_app. split; assumption.
Qed.

(** X4: whatever the outcome, [write] and [replay] take the lock first and
    release it last, and in between send the write transaction nothing but
    statements to execute, savepoints and rollbacks to a savepoint: they
    never commit, never begin a transaction and never query. *)
Theorem write_and_replay_events : forall req resp s,
  (exists mid,
     trace (fst (write req s)) = trace s ++ EvLock :: mid ++ [EvUnlock] /\
     Forall (fun e => isStatementEvent e = true) mid) /\
  (exists mid,
     trace (fst (replay req resp s)) =
       trace s ++ EvLock :: mid ++ [EvUnlock] /\
     Forall (fun e => isStatementEvent e = true) mid).
Proof.
  intros req resp s. split.
  - unfold write.
    destruct (writeQueries req (getID (Lock s)) 0
                (Queries (Request_Payload req)) 0 0 (Lock s))
      as [s1 [e | [t l]]] eqn:E;
      apply writeQueries_events in E; destruct E as (evs & T & F); cbn in T.
    + exists evs. cbn. rewrite T, <- !app_assoc. split; [reflexivity | exact F].
    + exists (evs ++ [EvSavepoint (current s1)]). cbn.
      rewrite T, <- !app_assoc. split; [reflexivity |].
      apply Forall_app. split; [exact F | repeat constructor].
  - unfold replay.
    destruct (negb _).
    + exists []. cbn. rewrite <- app_assoc. split; [reflexivity | constructor].
    + destruct (replayQueries (getID (Lock s)) 0
                  (Queries (Request_Payload req)) (Lock s))
        as [s1 [e |]] eqn:E;
        apply replayQueries_events in E; destruct E as (evs & T & F);
        cbn in T.
      * exists evs. cbn. rewrite T, <- !app_assoc.
        split; [reflexivity | exact F].
      * exists (evs ++ [EvSavepoint (current s1)]). cbn.
        rewrite T, <- !app_assoc. split; [reflexivity |].
        apply Forall_app. split; [exact F | repeat constructor].
Qed.

Lemma replayBlockQueries_events : forall ty lastsp i qs j s s' r,
  replayBlockQueries ty lastsp i j qs s = (s', r) ->
  exists evs, trace s' = trace s ++ evs /\
              Forall (fun e => isStatementEvent e = true) evs.
Proof.
  intros ty lastsp i qs. induction qs as [| v rest IH]; intros j s s' r; cbn.
  - intro H; inversion H; subst. exists []. rewrite app_nil_r.
    split; [reflexivity | constructor].
  - destruct ty.
    + apply IH.
    + destruct (writeSingle v s) as [s1 [ierr | res]] eqn:E;
        apply writeSingle_events in E; destruct E as (e1 & T1 & F1).
      * intro H; inversion H; subst. exists (e1 ++ [EvRollbackTo lastsp]).
        split; [cbn; rewrite T1, app_assoc; reflexivity |].
        apply Forall_app. split; [exact F1 | repeat constructor].
      * intro H. apply IH in H. destruct H as (e2 & T2 & F2).
        exists (e1 ++ e2). split; [rewrite T2, T1, app_assoc; reflexivity |].
        apply Forall_app. split; assumption.
    + intro H; inversion H; subst. exists [EvRollbackTo lastsp].
      split; [reflexivity | repeat constructor].
Qed.

Lemma replayBlockTxs_events : forall txs i l s s' r,
  replayBlockTxs i txs l s = (s', r) ->
  exists evs, trace s' = trace s ++ evs /\
              Forall (fun e => isStatementEvent e = true) evs.
Proof.
  induction txs as [| q rest IH]; intros i l s s' r; cbn.
  - intro H; inversion H; subst. exists []. rewrite app_nil_r.
    split; [reflexivity | constructor].
  - destruct (_ >? _).
    { intro H; inversion H; subst. exists []. rewrite app_nil_r.
      split; [reflexivity | constructor]. }
    destruct (_ <? _).
    { destruct (negb _).
      - intro H; inversion H; subst. exists []. rewrite app_nil_r.
        split; [reflexivity | constructor].
      - apply IH. }
    destruct (replayBlockQueries _ _ _ _ _ _) as [s1 [err |]] eqn:E;
      apply replayBlockQueries_events in E; destruct E as (e1 & T1 & F1).
    + intro H; inversion H; subst. exists e1. split; assumption.
    + intro H. apply IH in H. destruct H as (e2 & T2 & F2). cbn in T2.
      exists (e1 ++ EvSavepoint (getID s1) :: e2). split.
      * rewrite T2, T1, <- !app_assoc. reflexivity.
      * apply Forall_app. split; [exact F1 |].
        constructor; [reflexivity | exact F2].
Qed.

Lemma criticalSection_intro : forall mid,
  Forall (fun e => isLockEvent e = false) mid ->
  criticalSection (EvLock :: mid ++ [EvUnlock]).
Proof. intros mid F. exists mid. split; [reflexivity | exact F]. Qed.

(** X5: [ReplayBlockWithContext], [commit], [CommitExWithContext] and
    [rollback] each run as one critical section, whatever they return: the
    lock is taken first, released last, on the error paths too, and is not
    touched in between. *)
Theorem one_critical_section : forall block s,
  (exists evs, trace (fst (ReplayBlockWithContext block s)) = trace s ++ evs
               /\ criticalSection evs) /\
  (exists evs, trace (fst (commit s)) = trace s ++ evs
               /\ criticalSection evs) /\
  (exists evs, trace (fst (CommitExWithContext s)) = trace s ++ evs
               /\ criticalSection evs) /\
  (exists evs, trace (rollback s) = trace s ++ evs /\ criticalSection evs).
Proof.
  intros block s. split; [| split; [| split]].
  - unfold ReplayBlockWithContext.
    destruct (replayBlockTxs 0 (QueryTxs block) 0 (Lock s))
      as [s1 [err | lastsp]] eqn:E;
      apply replayBlockTxs_events in E; destruct E as (evs & T & F);
      cbn in T;
      assert (F' : Forall (fun e => isLockEvent e = false) evs)
        by (eapply Forall_impl; [| exact F]; apply statement_not_lock).
    + exists (EvLock :: evs ++ [EvUnlock]). split.
      * cbn. rewrite T, <- !app_assoc. reflexivity.
      * apply criticalSection_intro. exact F'.
    + unfold finishReplayBlock.
      destruct (removeFailedReqs_frame (FailedReqs block) s1)
        as (Hs & Ht & _).
      destruct (matchLast _ _).
      * unfold uncCommit. rewrite Hs, Ht.
        destruct (Commit (strg s1) (trace s1)).
        { exists (EvLock :: (evs ++ [EvCommit]) ++ [EvUnlock]). split.
          - cbn. rewrite Ht, T, <- !app_assoc. reflexivity.
          - apply criticalSection_intro, Forall_app.
            split; [exact F' | repeat constructor]. }
        unfold beginUnc. cbn. rewrite Hs, Ht.
        destruct (Begin (strg s1) (trace s1 ++ [EvCommit])).
        { exists (EvLock :: (evs ++ [EvCommit; EvBegin]) ++ [EvUnlock]).
          split.
          - cbn. rewrite Ht, T, <- !app_assoc. reflexivity.
          - apply criticalSection_intro, Forall_app.
            split; [exact F' | repeat constructor]. }
        exists (EvLock :: (evs ++ [EvCommit; EvBegin;
                                   EvSavepoint (current s1)])
                       ++ [EvUnlock]).
        destruct (removeFailedReqs_frame (FailedReqs block) s1)
          as (_ & _ & _ & _ & Hc & _).
        split.
        { cbn. rewrite Ht, Hc, T, <- !app_assoc. reflexivity. }
        apply criticalSection_intro, Forall_app.
        split; [exact F' | repeat constructor].
      * exists (EvLock :: (evs ++ [EvSavepoint (current s1)]) ++ [EvUnlock]).
        destruct (removeFailedReqs_frame (FailedReqs block) s1)
          as (_ & _ & _ & _ & Hc & _).
        split.
        { cbn. rewrite Ht, Hc, T, <- !app_assoc. reflexivity. }
        apply criticalSection_intro, Forall_app.
        split; [exact F' | repeat constructor].
  - unfold commit, uncCommit. cbn.
    destruct (Commit (strg s) (trace s ++ [EvLock])).
    { exists (EvLock :: [EvCommit] ++ [EvUnlock]). split.
      - cbn. rewrite <- !app_assoc. reflexivity.
      - apply criticalSection_intro. repeat constructor. }
    cbn. destruct (Begin (strg s) ((trace s ++ [EvLock]) ++ [EvCommit])).
    { exists (EvLock :: [EvCommit; EvBegin] ++ [EvUnlock]). split.
      - cbn. rewrite <- !app_assoc. reflexivity.
      - apply criticalSection_intro. repeat constructor. }
    exists (EvLock :: [EvCommit; EvBegin; EvSavepoint (current s)]
                   ++ [EvUnlock]).
    split.
    + cbn. rewrite <- !app_assoc. reflexivity.
    + apply criticalSection_intro. repeat constructor.
  - unfold CommitExWithContext, uncCommit. cbn.
    destruct (Commit (strg s) (trace s ++ [EvLock])).
    { exists (EvLock :: [EvCommit] ++ [EvUnlock]). split.
      - cbn. rewrite <- !app_assoc. reflexivity.
      - apply criticalSection_intro. repeat constructor. }
    cbn. destruct (Begin (strg s) ((trace s ++ [EvLock]) ++ [EvCommit])).
    { exists (EvLock :: [EvCommit; EvBegin] ++ [EvUnlock]). split.
      - cbn. rewrite <- !app_assoc. reflexivity.
      - apply criticalSection_intro. repeat constructor. }
    exists (EvLock :: [EvCommit; EvBegin; EvSavepoint (current s)]
                   ++ [EvUnlock]).
    split.
    + cbn. rewrite <- !app_assoc. reflexivity.
    + apply criticalSection_intro. repeat constructor.
  - exists (EvLock :: [EvRollbackTo (cmpoint s)] ++ [EvUnlock]). split.
    + cbn. rewrite <- !app_assoc. reflexivity.
    + apply criticalSection_intro. repeat constructor.
Qed.

(** ** Replaying what another node wrote *)

Lemma replay_ok_state : forall req resp s rs s1,
  uint64_range (current s) ->
  LogOffset (ResponseHeader_ (Response_Header resp)) = current s ->
  Applied (Lock s) (Queries (Request_Payload req)) rs s1 ->
  snd (replay req resp s) = None /\
  pool_ (fst (replay req resp s)) =
    enqueue (pool_ s) (LogOffset (ResponseHeader_ (Response_Header resp)))
            (mkQueryTracker req (Some resp)) /\
  current (fst (replay req resp s)) =
    wrap_uint64 (current s
                 + Z.of_nat (List.length (Queries (Request_Payload req)))).
Proof.
  intros req resp s rs s1 Hc Hoff Hrun.
  pose proof (Applied_frame _ _ _ _ Hrun) as (_ & Hp & _).
  pose proof (Applied_current _ _ _ _ Hrun Hc) as Hcur.
  unfold replay. rewrite Hoff. cbn. rewrite Z.eqb_refl. cbn.
  rewrite (replayQueries_Applied _ _ _ _ Hrun). cbn.
  rewrite Hp. repeat split; auto.
Qed.

(** X6: a single-request replay whose response offset is the counter and
    whose statements all succeed returns no error, enqueues the tracker,
    holding the request and the supplied response, under that offset,
    advances the counter by the number of statements and ends with a
    savepoint at the new counter; the failed set is not touched. *)
Theorem replay_success : forall req resp s rs s1,
  uint64_range (current s) ->
  LogOffset (ResponseHeader_ (Response_Header resp)) = current s ->
  Applied (Lock s) (Queries (Request_Payload req)) rs s1 ->
  let s' := fst (replay req resp s) in
  snd (replay req resp s) = None /\
  pool_ s' =
    enqueue (pool_ s) (LogOffset (ResponseHeader_ (Response_Header resp)))
            (mkQueryTracker req (Some resp)) /\
  current s' =
    wrap_uint64 (current s
                 + Z.of_nat (List.length (Queries (Request_Payload req)))) /\
  trace s' = trace s1 ++ [EvSavepoint (current s'); EvUnlock].
Proof.
  intros req resp s rs s1 Hc Hoff Hrun.
  pose proof (Applied_frame _ _ _ _ Hrun) as (_ & Hp & _).
  pose proof (Applied_current _ _ _ _ Hrun Hc) as Hcur.
  unfold replay. rewrite Hoff. cbn. rewrite Z.eqb_refl. cbn.
  rewrite (replayQueries_Applied _ _ _ _ Hrun). cbn.
  rewrite Hp, <- app_assoc. repeat split; auto.
Qed.

Lemma replay_success_witness :
  snd (replay insertTwo (sampleResponse insertTwo 100) state100) = None /\
  current (fst (replay insertTwo (sampleResponse insertTwo 100) state100))
    = 102.
Proof.
  pose (q1 := mkQuery "INSERT INTO t VALUES (2)" []).
  pose (q2 := mkQuery "INSERT INTO t VALUES (3)" []).
  pose (s1 := fst (writeSingle q1 (Lock state100))).
  pose (s2 := fst (writeSingle q2 s1)).
  destruct (replay_success insertTwo (sampleResponse insertTwo 100) state100
              [mkResult 1 4; mkResult 1 5] s2) as (He & _ & Hc & _).
  - vm_compute. split; [discriminate | reflexivity].
  - reflexivity.
  - eapply Applied_cons; [reflexivity |].
    eapply Applied_cons; [reflexivity | apply Applied_nil].
  - split; [exact He | rewrite Hc; reflexivity].
Defined.

(** X7: replication keeps the counters in step.  When a write succeeds on
    one state, and its request and response are replayed on a state whose
    counter has the value the first one had, on which the statements succeed
    too, the replay is accepted, the second counter ends where the first one
    ended, and the second pool holds the request under the response's
    LogOffset. *)
Theorem replay_follows_write : forall req sA sA' ref resp sB rs sB1,
  QueryType_ (Request_Header req) = WriteQuery ->
  uint64_range (current sA) ->
  write req sA = (sA', inr (ref, resp)) ->
  current sB = current sA ->
  Applied (Lock sB) (Queries (Request_Payload req)) rs sB1 ->
  let sB' := fst (ReplayWithContext req resp sB) in
  snd (ReplayWithContext req resp sB) = None /\
  current sB' = current sA' /\
  In (LogOffset (ResponseHeader_ (Response_Header resp)),
      mkQueryTracker req (Some resp))
     (queries (pool_ sB')).
Proof.
  intros req sA sA' ref resp sB rs sB1 Hty Hc Hw Heq Hrun.
  pose proof (write_ok_current _ _ _ _ _ Hw Hc) as HcA.
  apply write_ok_LogOffset in Hw. destruct Hw as (Hoff & _).
  assert (HcB : uint64_range (current sB)) by (rewrite Heq; exact Hc).
  assert (HoffB : LogOffset (ResponseHeader_ (Response_Header resp))
                  = current sB) by congruence.
  destruct (replay_ok_state req resp sB rs sB1 HcB HoffB Hrun)
    as (He & Hp & Hcur).
  unfold ReplayWithContext. rewrite Hty.
  split; [exact He |]. split; [congruence |].
  rewrite Hp. cbn. apply in_or_app. right. left. reflexivity.
Qed.

Lemma replay_follows_write_witness :
  let s := fst (write insertOne state100) in
  exists ref resp,
    write insertTwo s = (fst (write insertTwo s), inr (ref, resp)) /\
    snd (ReplayWithContext insertTwo resp s) = None /\
    current (fst (ReplayWithContext insertTwo resp s))
      = current (fst (write insertTwo s)).
Proof.
  intro s.
  destruct (write_isOk insertTwo s) as (ref & resp & Hw);
    [vm_compute; reflexivity |].
  pose (q1 := mkQuery "INSERT INTO t VALUES (2)" []).
  pose (q2 := mkQuery "INSERT INTO t VALUES (3)" []).
  pose (s1 := fst (writeSingle q1 (Lock s))).
  pose (s2 := fst (writeSingle q2 s1)).
  assert (Hty : QueryType_ (Request_Header insertTwo) = WriteQuery)
    by (vm_compute; reflexivity).
  assert (Hc : uint64_range (current s))
    by (vm_compute; split; [discriminate | reflexivity]).
  assert (Hrun : Applied (Lock s) (Queries (Request_Payload insertTwo))
                         [mkResult 1 8; mkResult 1 9] s2).
  { eapply Applied_cons; [vm_compute; reflexivity |].
    eapply Applied_cons; [vm_compute; reflexivity | apply Applied_nil]. }
  destruct (replay_follows_write insertTwo s (fst (write insertTwo s))
              ref resp s [mkResult 1 8; mkResult 1 9] s2 Hty Hc Hw eq_refl
              Hrun) as (He & Hcur & _).
  exists ref, resp. split; [exact Hw |]. split; [exact He | exact Hcur].
Defined.

(** ** Committing *)

Lemma write_ok_state : forall req s s' ref resp,
  write req s = (s', inr (ref, resp)) ->
  ref = mkQueryTracker req None /\
  pool_ s' = enqueue (pool_ s) (current s) ref /\
  strg s' = strg s /\ origin s' = origin s /\ cmpoint s' = cmpoint s.
Proof.
  intros req s s' ref resp H. unfold write in H.
  destruct (writeQueries req (getID (Lock s)) 0
              (Queries (Request_Payload req)) 0 0 (Lock s))
    as [s1 [e | [t l]]] eqn:E; [discriminate |].
  apply writeQueries_ok_inv in E. destruct E as [rs E].
  apply Applied_frame in E. destruct E as (E1 & E2 & _ & E4 & E5).
  inversion H; subst. cbn. rewrite E2. repeat split; assumption.
Qed.

Lemma Written_frame : forall s reqs s',
  Written s reqs s' ->
  strg s' = strg s /\ origin s' = origin s /\ cmpoint s' = cmpoint s /\
  failed (pool_ s') = failed (pool_ s) /\
  map snd (queries (pool_ s')) =
    map snd (queries (pool_ s)) ++ map (fun r => mkQueryTracker r None) reqs.
Proof.
  induction 1 as [s | s req s1 ref resp reqs s2 Hw _ IH].
  - rewrite app_nil_r. repeat split; reflexivity.
  - apply write_ok_state in Hw. destruct Hw as (-> & Hp & Hs & Ho & Hm).
    destruct IH as (I1 & I2 & I3 & I4 & I5).
    rewrite I5, I4, Hp. cbn. rewrite map_app, <- app_assoc.
    repeat split; congruence.
Qed.

(** X8: after any sequence of successful writes, [CommitExWithContext], on a
    storage that commits and begins again, returns the failed requests the
    pool had and, after the trackers it had, one tracker per written
    request, in the order of the writes; it leaves an empty pool, the flag
    down, and origin and commit point at the counter, which it does not
    move. *)
Theorem writes_then_CommitEx : forall s0 reqs s1,
  Written s0 reqs s1 ->
  Commit (strg s0) (trace s1 ++ [EvLock]) = None ->
  Begin (strg s0) (trace s1 ++ [EvLock; EvCommit]) = None ->
  let s' := fst (CommitExWithContext s1) in
  snd (CommitExWithContext s1) =
    inr (failedList (pool_ s0),
         map snd (queries (pool_ s0))
           ++ map (fun r => mkQueryTracker r None) reqs) /\
  pool_ s' = newPool /\ hasSchemaChange s' = 0 /\
  origin s' = current s1 /\ cmpoint s' = current s1 /\
  current s' = current s1 /\
  trace s' = trace s1 ++ [EvLock; EvCommit; EvBegin;
                          EvSavepoint (current s1); EvUnlock].
Proof.
  intros s0 reqs s1 Hw Hcommit Hbegin.
  apply Written_frame in Hw. destruct Hw as (Hs & _ & _ & Hf & Hq).
  unfold CommitExWithContext, uncCommit, beginUnc. cbn.
  rewrite Hs, Hcommit. cbn. rewrite Hs, <- app_assoc. cbn. rewrite Hbegin.
  cbn. unfold failedList. rewrite Hf, Hq, <- !app_assoc.
  repeat split; reflexivity.
Qed.

Lemma writes_then_CommitEx_witness :
  let s1 := fst (write insertTwo (fst (write insertOne state100))) in
  snd (CommitExWithContext s1) =
    inr ([], [mkQueryTracker insertOne None; mkQueryTracker insertTwo None])
  /\ pool_ (fst (CommitExWithContext s1)) = newPool
  /\ current (fst (CommitExWithContext s1)) = 103.
Proof.
  intro s1.
  destruct (write_isOk insertOne state100 eq_refl) as (r1 & p1 & H1).
  destruct (write_isOk insertTwo (fst (write insertOne state100)) eq_refl)
    as (r2 & p2 & H2).
  destruct (writes_then_CommitEx state100 [insertOne; insertTwo] s1)
    as (He & Hp & _ & _ & _ & Hc & _).
  - eapply Written_cons; [exact H1 |].
    eapply Written_cons; [exact H2 | apply Written_nil].
  - reflexivity.
  - reflexivity.
  - split; [exact He |]. split; [exact Hp | rewrite Hc; reflexivity].
Defined.

(** X9: the two fatal outcomes of [CommitExWithContext] and [commit].  When
    the storage refuses the commit, the error is returned and nothing but
    the trace changes: the pool, the flag and the three counters are kept,
    and no transaction is begun.  When the commit goes through and the
    storage then refuses to begin, the error is returned with the flag
    already cleared, while the pool and the counters are kept and no
    savepoint is issued. *)
Theorem commit_fatal_errors : forall s err,
  (Commit (strg s) (trace s ++ [EvLock]) = Some err ->
   snd (CommitExWithContext s) = inl err /\
   snd (commit s) = Some err /\
   fst (CommitExWithContext s) = fst (commit s) /\
   let s' := fst (commit s) in
   pool_ s' = pool_ s /\ hasSchemaChange s' = hasSchemaChange s /\
   origin s' = origin s /\ cmpoint s' = cmpoint s /\
   current s' = current s /\
   trace s' = trace s ++ [EvLock; EvCommit; EvUnlock]) /\
  (Commit (strg s) (trace s ++ [EvLock]) = None ->
   Begin (strg s) (trace s ++ [EvLock; EvCommit]) = Some err ->
   snd (CommitExWithContext s) = inl err /\
   snd (commit s) = Some err /\
   fst (CommitExWithContext s) = fst (commit s) /\
   let s' := fst (commit s) in
   pool_ s' = pool_ s /\ hasSchemaChange s' = 0 /\
   origin s' = origin s /\ cmpoint s' = cmpoint s /\
   current s' = current s /\
   trace s' = trace s ++ [EvLock; EvCommit; EvBegin; EvUnlock]).
Proof.
  intros s err. split.
  - intro Hcommit. unfold CommitExWithContext, commit, uncCommit. cbn.
    rewrite Hcommit. cbn. rewrite <- !app_assoc.
    repeat split; reflexivity.
  - intros Hcommit Hbegin.
    unfold CommitExWithContext, commit, uncCommit, beginUnc. cbn.
    rewrite Hcommit. cbn. rewrite <- app_assoc. cbn. rewrite Hbegin.
    cbn. rewrite <- !app_assoc. repeat split; reflexivity.
Qed.

Lemma commit_fatal_errors_witness :
  (let s := fst (write createTable (flakyState100 true false)) in
   snd (commit s) = Some (ErrExternal "cannot commit") /\
   hasSchemaChange (fst (commit s)) = 1 /\
   pool_ (fst (commit s)) = pool_ s) /\
  (let s := fst (write createTable (flakyState100 false true)) in
   snd (commit s) = Some (ErrExternal "cannot begin") /\
   hasSchemaChange (fst (commit s)) = 0 /\
   pool_ (fst (commit s)) = pool_ s).
Proof.
  split; intro s.
  - destruct (commit_fatal_errors s (ErrExternal "cannot commit"))
      as (H & _).
    destruct (H eq_refl) as (_ & He & _ & Hp & Hf & _).
    split; [exact He |]. split; [rewrite Hf; reflexivity | exact Hp].
  - destruct (commit_fatal_errors s (ErrExternal "cannot begin"))
      as (_ & H).
    destruct (H eq_refl eq_refl) as (_ & He & _ & Hp & Hf & _).
    split; [exact He |]. split; [exact Hf | exact Hp].
Defined.

(** ** Rolling back to the commit point *)

(** X10: writes do not move the commit point, so after any sequence of
    successful writes [rollback] brings the counter back to the commit point
    the sequence started with, issuing the rollback inside one critical
    section; it leaves the pool as it is, trackers of the rolled-back writes
    included; and the next write that succeeds has the commit point as its
    LogOffset. *)
Theorem rollback_after_writes : forall s0 reqs s1 req s2 ref resp,
  Written s0 reqs s1 ->
  write req (rollback s1) = (s2, inr (ref, resp)) ->
  current (rollback s1) = cmpoint s0 /\
  pool_ (rollback s1) = pool_ s1 /\
  trace (rollback s1) =
    trace s1 ++ [EvLock; EvRollbackTo (cmpoint s0); EvUnlock] /\
  LogOffset (ResponseHeader_ (Response_Header resp)) = cmpoint s0.
Proof.
  intros s0 reqs s1 req s2 ref resp Hw Hnext.
  apply Written_frame in Hw. destruct Hw as (_ & _ & Hm & _).
  apply write_ok_LogOffset in Hnext. destruct Hnext as (Hoff & _).
  cbn in Hoff. cbn. rewrite <- !app_assoc. rewrite Hm in *.
  repeat split; try reflexivity. exact Hoff.
Qed.

Lemma rollback_after_writes_witness :
  let s1 := fst (write insertTwo (fst (write insertOne state100))) in
  current s1 = 103 /\
  current (rollback s1) = 100 /\
  exists ref resp,
    snd (write createTable (rollback s1)) = inr (ref, resp) /\
    LogOffset (ResponseHeader_ (Response_Header resp)) = 100.
Proof.
  intro s1. split; [reflexivity |].
  destruct (write_isOk insertOne state100 eq_refl) as (r1 & p1 & H1).
  destruct (write_isOk insertTwo (fst (write insertOne state100)) eq_refl)
    as (r2 & p2 & H2).
  destruct (write_isOk createTable (rollback s1) eq_refl)
    as (ref & resp & H3).
  destruct (rollback_after_writes state100 [insertOne; insertTwo] s1
              createTable (fst (write createTable (rollback s1))) ref resp)
    as (Hc & _ & _ & Hl).
  - eapply Written_cons; [exact H1 |].
    eapply Written_cons; [exact H2 | apply Written_nil].
  - exact H3.
  - split; [exact Hc |]. exists ref, resp.
    split; [rewrite H3; reflexivity | exact Hl].
Defined.

(** ** The schema-change flag *)

Lemma existsb_pointwise : forall (A : Type) (f g : A -> bool) (l : list A),
  (forall a, f a = g a) -> existsb f l = existsb g l.
Proof.
  intros A f g l H. induction l as [| a l IH]; cbn; [reflexivity |].
  rewrite H, IH. reflexivity.
Qed.

Lemma containsDDL_strg : forall s s' q,
  strg s' = strg s -> containsDDL s' q = containsDDL s q.
Proof. intros s s' q H. unfold containsDDL. rewrite H. reflexivity. Qed.

Lemma writeSingle_ok_flag : forall q s s' res,
  writeSingle q s = (s', inr res) ->
  hasSchemaChange s' = if containsDDL s q then 1 else hasSchemaChange s.
Proof.
  intros q s s' res. unfold containsDDL. split_writeSingle s q;
    intro H; inversion H; subst; reflexivity.
Qed.

Lemma writeSingle_error_flag : forall q s s' err,
  writeSingle q s = (s', inl err) ->
  hasSchemaChange s' = hasSchemaChange s /\ current s' = current s.
Proof.
  intros q s s' err. split_writeSingle s q;
    intro H; inversion H; subst; split; reflexivity.
Qed.

(** After a run that succeeds the flag is up if a statement of the run was
    reported as DDL, and is what it was otherwise. *)
Lemma Applied_flag : forall s qs rs s',
  Applied s qs rs s' ->
  hasSchemaChange s' =
  if existsb (containsDDL s) qs then 1 else hasSchemaChange s.
Proof.
  induction 1 as [s | s q s1 r qs rs s2 Hw _ IH].
  - reflexivity.
  - pose proof (writeSingle_ok_flag _ _ _ _ Hw) as Hf.
    apply writeSingle_frame in Hw. destruct Hw as (Hs & _).
    rewrite IH, Hf. cbn [existsb].
    rewrite (existsb_pointwise _ (containsDDL s1) (containsDDL s) qs
               (fun q0 => containsDDL_strg s s1 q0 Hs)).
    destruct (containsDDL s q), (existsb (containsDDL s) qs); reflexivity.
Qed.

(** X11: the flag after a write.  When every statement succeeds the flag is
    up if one of them was reported as DDL and is what it was otherwise.  When
    a statement fails, the rollback to the savepoint does not lower the
    flag: it is up if one of the statements executed before the failing one
    was reported as DDL, although the counter is back at its entry value. *)
Theorem flag_after_write : forall req s,
  (forall rs s1,
     Applied (Lock s) (Queries (Request_Payload req)) rs s1 ->
     hasSchemaChange (fst (write req s)) =
     if existsb (containsDDL s) (Queries (Request_Payload req))
     then 1 else hasSchemaChange s) /\
  (forall pre q post rs s1 s2 ierr,
     Queries (Request_Payload req) = pre ++ q :: post ->
     Applied (Lock s) pre rs s1 ->
     writeSingle q s1 = (s2, inl ierr) ->
     hasSchemaChange (fst (write req s)) =
       (if existsb (containsDDL s) pre then 1 else hasSchemaChange s) /\
     current (fst (write req s)) = current s).
Proof.
  intros req s. split.
  - intros rs s1 Hrun. unfold write.
    rewrite (writeQueries_Applied _ _ _ _ Hrun). cbn.
    rewrite (Applied_flag _ _ _ _ Hrun). reflexivity.
  - intros pre q post rs s1 s2 ierr Hq Hpre Hfail. unfold write.
    rewrite Hq, (writeQueries_failure _ _ _ _ Hpre _ _ _ _ _ _ _ _ _ Hfail).
    cbn. apply writeSingle_error_flag in Hfail. destruct Hfail as (Hf & _).
    rewrite Hf, (Applied_flag _ _ _ _ Hpre). split; reflexivity.
Qed.

Lemma flag_after_write_witness :
  let req := sampleRequest WriteQuery 7
               ["CREATE TABLE u (x)"%string;
                "INSERT INTO missing VALUES (1)"%string] in
  isOk (snd (write req state100)) = false /\
  hasSchemaChange state100 = 0 /\
  hasSchemaChange (fst (write req state100)) = 1 /\
  current (fst (write req state100)) = 100.
Proof.
  intro req.
  pose (q1 := mkQuery "CREATE TABLE u (x)" []).
  pose (q2 := mkQuery "INSERT INTO missing VALUES (1)" []).
  pose (s1 := fst (writeSingle q1 (Lock state100))).
  pose (s2 := fst (writeSingle q2 s1)).
  destruct (flag_after_write req state100) as (_ & H).
  destruct (H [q1] q2 [] [mkResult 1 4] s1 s2
              (ErrExternal "no such table: missing")) as (Hf & Hc).
  - reflexivity.
  - eapply Applied_cons; [reflexivity | apply Applied_nil].
  - reflexivity.
  - split; [reflexivity |]. split; [reflexivity |].
    split; [rewrite Hf; reflexivity | exact Hc].
Defined.

(** ** Reads, as a whole *)

Lemma Answered_frame : forall qer s qs rss s',
  Answered qer s qs rss s' ->
  strg s' = strg s /\ pool_ s' = pool_ s /\ current s' = current s /\
  nodeID s' = nodeID s.
Proof.
  induction 1 as [s | s q s1 rs qs rss s2 Hr _ IH].
  - repeat split; reflexivity.
  - unfold readSingle in Hr.
    destruct (convertQueryAndBuildArgs (strg s) (Pattern q) (Args q))
      as [err | [[ddl pattern] args]]; [discriminate |].
    inversion Hr; subst. cbn in IH. exact IH.
Qed.

Lemma readQueries_Answered : forall qer s qs rss s',
  Answered qer s qs rss s' ->
  forall req i lst,
    readQueries qer req i qs lst s = (s', inr (last rss lst)).
Proof.
  induction 1 as [s | s q s1 rs qs rss s2 Hr _ IH]; intros; cbn [readQueries].
  - reflexivity.
  - rewrite Hr, IH, last_cons_default. reflexivity.
Qed.

Lemma readQueries_failure : forall qer s pre rss s1,
  Answered qer s pre rss s1 ->
  forall q s2 ierr req i lst post,
    readSingle qer q s1 = (s2, inl ierr) ->
    readQueries qer req i (pre ++ q :: post) lst s =
    (with_pool (setFailed (pool_ s2) req) s2,
     inl (Wrapf ierr (QueryAtFailed (i + List.length pre)))).
Proof.
  induction 1 as [s | s q0 s1 rs qs rss s2 Hr _ IH]; intros; cbn.
  - rewrite H, Nat.add_0_r. reflexivity.
  - rewrite Hr. erewrite IH by eassumption.
    rewrite Nat.add_succ_r. reflexivity.
Qed.

(** The querier of [readTx] and the state in which its loop starts. *)
Lemma readTx_unfold : forall req s,
  readTx req s =
  if hasSchemaChange s =? 1 then
    match readQueries OnUnc req 0 (Queries (Request_Payload req))
                      noResultSet (fst (setSavepoint (Lock s))) with
    | (s3, inl err) => (Unlock (rollbackTo (current s) s3), inl err)
    | (s3, inr rs) =>
        (Unlock (rollbackTo (current s) s3),
         inr (readResponse req s3 rs (current s)))
    end
  else
    match ReaderBegin (strg s) (trace s) with
    | Some ierr => (emit EvReaderBegin s, inl (Wrapf ierr OpenTxFailed))
    | None =>
        match readQueries OnReaderTx req 0 (Queries (Request_Payload req))
                          noResultSet (emit EvReaderBegin s) with
        | (s2, inl err) => (emit EvReaderRollback s2, inl err)
        | (s2, inr rs) =>
            (emit EvReaderRollback s2,
             inr (readResponse req s2 rs (current s)))
        end
    end.
Proof. reflexivity. Qed.

(** X12: when a statement of a read fails after the statements before it
    succeeded, [readTx] returns the statement's error wrapped with its index
    and adds the request to the pool's failed set, on both of its paths: on
    the write transaction (flag at 1), where the rollback to the savepoint
    and the unlock still follow, and on a dirty-reader transaction, which is
    still rolled back. *)
Theorem readTx_failure : forall req s pre q post rss s1 s2 ierr,
  let onUnc := hasSchemaChange s =? 1 in
  let qer := if onUnc then OnUnc else OnReaderTx in
  let start :=
    if onUnc then fst (setSavepoint (Lock s)) else emit EvReaderBegin s in
  Queries (Request_Payload req) = pre ++ q :: post ->
  (onUnc = false -> ReaderBegin (strg s) (trace s) = None) ->
  Answered qer start pre rss s1 ->
  readSingle qer q s1 = (s2, inl ierr) ->
  let s' := fst (readTx req s) in
  snd (readTx req s) = inl (Wrapf ierr (QueryAtFailed (List.length pre))) /\
  pool_ s' = setFailed (pool_ s) req /\
  In req (failed (pool_ s')) /\
  trace s' =
    trace s2 ++ (if onUnc then [EvRollbackTo (current s); EvUnlock]
                 else [EvReaderRollback]).
Proof.
  intros req s pre q post rss s1 s2 ierr onUnc qer start Hq Hb Hpre Hfail.
  assert (Hp : pool_ s2 = pool_ s).
  { apply Answered_frame in Hpre. destruct Hpre as (_ & Hp & _).
    unfold readSingle in Hfail.
    destruct (convertQueryAndBuildArgs (strg s1) (Pattern q) (Args q))
      as [err | [[ddl pattern] args]]; inversion Hfail; subst; cbn;
      rewrite Hp; subst start; destruct onUnc; reflexivity. }
  rewrite readTx_unfold. fold onUnc. subst qer start.
  destruct onUnc.
  - rewrite Hq, (readQueries_failure _ _ _ _ _ Hpre _ _ _ _ _ _ _ Hfail).
    cbn. rewrite Hp, <- app_assoc.
    repeat split; auto using setFailed_In.
  - rewrite (Hb eq_refl).
    rewrite Hq, (readQueries_failure _ _ _ _ _ Hpre _ _ _ _ _ _ _ Hfail).
    cbn. rewrite Hp. repeat split; auto using setFailed_In.
Qed.

Lemma readTx_failure_witness :
  snd (readTx selectMissing state100) =
    inl (Wrapf (ErrExternal "no such table: missing") (QueryAtFailed 0)) /\
  In selectMissing (failed (pool_ (fst (readTx selectMissing state100)))) /\
  (let s := fst (write createTable state100) in
   snd (readTx selectMissing s) =
     inl (Wrapf (ErrExternal "no such table: missing") (QueryAtFailed 0)) /\
   current (fst (readTx selectMissing s)) = current s).
Proof.
  pose (q := mkQuery "SELECT count(*) FROM missing" []).
  split; [| split].
  - destruct (readTx_failure selectMissing state100 [] q [] []
                (emit EvReaderBegin state100)
                (fst (readSingle OnReaderTx q (emit EvReaderBegin state100)))
                (ErrExternal "no such table: missing")) as (He & _).
    + reflexivity.
    + reflexivity.
    + apply Answered_nil.
    + reflexivity.
    + exact He.
  - destruct (readTx_failure selectMissing state100 [] q [] []
                (emit EvReaderBegin state100)
                (fst (readSingle OnReaderTx q (emit EvReaderBegin state100)))
                (ErrExternal "no such table: missing")) as (_ & _ & Hin & _).
    + reflexivity.
    + reflexivity.
    + apply Answered_nil.
    + reflexivity.
    + exact Hin.
  - intro s.
    destruct (readTx_failure selectMissing s [] q [] []
                (fst (setSavepoint (Lock s)))
                (fst (readSingle OnUnc q (fst (setSavepoint (Lock s)))))
                (ErrExternal "no such table: missing")) as (He & _).
    + reflexivity.
    + discriminate.
    + apply Answered_nil.
    + reflexivity.
    + split; [exact He | reflexivity].
Defined.

(** X13: when every statement of a read succeeds, [readTx] answers with the
    result of the last statement only: its column names and declared types,
    its rows in order, and its number of rows as row count; a read without
    statements succeeds with an empty payload and row count 0.  The
    response echoes the request header, carries the node id and the counter
    value on entry, and has no affected rows and no insert id; the tracker
    holds the request and no response; the pool is left as it was. *)
Theorem readTx_success : forall req s rss s1,
  let onUnc := hasSchemaChange s =? 1 in
  let qer := if onUnc then OnUnc else OnReaderTx in
  let start :=
    if onUnc then fst (setSavepoint (Lock s)) else emit EvReaderBegin s in
  (onUnc = false -> ReaderBegin (strg s) (trace s) = None) ->
  Answered qer start (Queries (Request_Payload req)) rss s1 ->
  exists resp,
    let h := ResponseHeader_ (Response_Header resp) in
    let answer := last rss noResultSet in
    snd (readTx req s) = inr (mkQueryTracker req None, resp) /\
    ResponseHeader_Request h = Request_Header req /\
    ResponseHeader_NodeID h = nodeID s /\
    LogOffset h = current s /\
    RowCount h = Z.of_nat (List.length (data answer)) /\
    AffectedRows h = 0 /\ LastInsertID h = 0 /\
    Columns (Response_Payload resp) = names answer /\
    DeclTypes (Response_Payload resp) = types answer /\
    map Values (Rows (Response_Payload resp)) = data answer /\
    pool_ (fst (readTx req s)) = pool_ s.
Proof.
  intros req s rss s1 onUnc qer start Hb Hrun.
  pose proof (Answered_frame _ _ _ _ _ Hrun) as (_ & Hp & _ & Hn).
  assert (Hmap : forall d, map Values (buildRowsFromNativeData d) = d).
  { intro d. unfold buildRowsFromNativeData. rewrite map_map. cbn.
    apply map_id. }
  rewrite readTx_unfold. fold onUnc. subst qer start.
  destruct onUnc.
  - rewrite (readQueries_Answered _ _ _ _ _ Hrun). cbn in Hp, Hn.
    eexists. cbn. split; [reflexivity |]. cbn.
    rewrite Hmap. repeat split; auto.
  - rewrite (Hb eq_refl), (readQueries_Answered _ _ _ _ _ Hrun).
    cbn in Hp, Hn. eexists. cbn. split; [reflexivity |]. cbn.
    rewrite Hmap. repeat split; auto.
Qed.

Lemma readTx_success_witness :
  exists resp,
    snd (readTx selectCount state100) =
      inr (mkQueryTracker selectCount None, resp) /\
    RowCount (ResponseHeader_ (Response_Header resp)) = 1 /\
    map Values (Rows (Response_Payload resp)) = [["0"%string]].
Proof.
  pose (q := mkQuery "SELECT count(*) FROM t" []).
  destruct (readTx_success selectCount state100
              [mkResultSet ["count(*)"%string] ["INTEGER"%string]
                           [["0"%string]]]
              (fst (readSingle OnReaderTx q (emit EvReaderBegin state100))))
    as (resp & He & _ & _ & _ & Hr & _ & _ & _ & _ & Hd & _).
  - reflexivity.
  - eapply Answered_cons; [reflexivity | apply Answered_nil].
  - exists resp. split; [exact He |]. split; [exact Hr | exact Hd].
Defined.

Lemma readQueries_error : forall qer req qs i lst s s' err,
  readQueries qer req i qs lst s = (s', inl err) ->
  In req (failed (pool_ s')) /\
  exists j ierr,
    err = Wrapf ierr (QueryAtFailed j) /\
    (i <= j < i + List.length qs)%nat.
Proof.
  intros qer req qs. induction qs as [| v rest IH]; intros i lst s s' err; cbn.
  - discriminate.
  - destruct (readSingle qer v s) as [s1 [ierr | rs]].
    + intro H; inversion H; subst. cbn. split; [apply setFailed_In |].
      exists i, ierr. split; [reflexivity | lia].
    + intro H. apply IH in H. destruct H as (Hin & j & ierr & -> & Hj).
      split; [exact Hin |]. exists j, ierr. split; [reflexivity | lia].
Qed.

(** X14: [readWithContext] reads on the dirty reader itself: it takes no
    lock, begins and rolls back no transaction and sends nothing to the
    write transaction; it sends the request's queries, as translated and in
    order, up to the first one that the translator or the storage does not
    answer; it leaves the counters, the flag and the pooled trackers as they
    were.  The LogOffset of its response is the counter, and the pool is
    then untouched; when a statement is not answered the request is added to
    the failed set and the error is that statement's, as the translator or
    the storage gave it, wrapped with the statement's index. *)
Theorem readWithContext_effects : forall req s,
  let s' := fst (readWithContext req s) in
  let r := snd (readWithContext req s) in
  current s' = current s /\ origin s' = origin s /\ cmpoint s' = cmpoint s /\
  hasSchemaChange s' = hasSchemaChange s /\
  queries (pool_ s') = queries (pool_ s) /\
  (exists evs, trace s' = trace s ++ evs /\
               Forall (isQueryOn OnDirtyReader) evs) /\
  (forall ref resp,
     r = inr (ref, resp) ->
     Req ref = req /\
     LogOffset (ResponseHeader_ (Response_Header resp)) = current s) /\
  (forall err,
     r = inl err ->
     In req (failed (pool_ s')) /\
     exists j ierr,
       err = Wrapf ierr (QueryAtFailed j) /\
       (j < List.length (Queries (Request_Payload req)))%nat) /\
  (exists evs,
     trace s' = trace s ++ evs /\
     ranQueries OnDirtyReader (strg s) (trace s)
       (Queries (Request_Payload req)) r evs) /\
  pool_ s' = (if isOk r then pool_ s else setFailed (pool_ s) req).
Proof.
  intros req s. unfold readWithContext.
  destruct (readQueries OnDirtyReader req 0 (Queries (Request_Payload req))
              noResultSet s) as [s1 r1] eqn:E.
  pose proof (readQueries_run _ _ _ _ _ _ _ E)
    as (Hq & Hc & Ho & Hm & Hf & evs & Ht & Hall & _ & Hran).
  pose proof (readQueries_outcome _ _ _ _ _ _ _ _ E) as Hout.
  assert (Hev : exists evs0, trace s1 = trace s ++ evs0 /\
                             Forall (isQueryOn OnDirtyReader) evs0)
    by (exists evs; split; assumption).
  destruct r1 as [err | rs]; cbn -[ranQueries];
    (split; [exact Hc |]); (split; [exact Ho |]); (split; [exact Hm |]);
    (split; [exact Hf |]); (split; [exact Hq |]); (split; [exact Hev |]).
  - split; [intros ref resp H; discriminate H |].
    split; [| split].
    + intros err0 H. inversion H; subst err0.
      apply readQueries_error in E. destruct E as (Hin & j & ierr & He & Hj).
      split; [exact Hin |]. exists j, ierr. split; [exact He | lia].
    + exists evs. split; [exact Ht | exact Hran].
    + destruct Hout as (pre & q & post & ierr & _ & _ & _ & _ & _ & Hp).
      exact Hp.
  - split; [| split; [intros err0 H; discriminate H | split]].
    + intros ref resp H. inversion H; subst. cbn.
      split; [reflexivity | exact Hc].
    + exists evs. split; [exact Ht | exact Hran].
    + destruct Hout as (_ & _ & Hp). exact Hp.
Qed.

Lemma readWithContext_effects_witness :
  snd (readWithContext selectMissing state100) =
    inl (Wrapf (ErrExternal "no such table: missing") (QueryAtFailed 0)) /\
  trace (fst (readWithContext selectMissing state100)) =
    trace state100
      ++ [EvQuery OnDirtyReader "SELECT count(*) FROM missing" []] /\
  In selectMissing
     (failed (pool_ (fst (readWithContext selectMissing state100)))) /\
  exists ref resp,
    snd (readWithContext selectCount state100) = inr (ref, resp) /\
    LogOffset (ResponseHeader_ (Response_Header resp)) = 100.
Proof.
  destruct (readWithContext_effects selectMissing state100)
    as (_ & _ & _ & _ & _ & _ & _ & Herr & (evs & Ht & Hran) & _).
  destruct (Herr (Wrapf (ErrExternal "no such table: missing")
                        (QueryAtFailed 0)) eq_refl) as (Hin & _).
  destruct (readWithContext_effects selectCount state100)
    as (_ & _ & _ & _ & _ & _ & Hok & _).
  split; [reflexivity |]. split; [| split; [exact Hin |]].
  - change (snd (readWithContext selectMissing state100))
      with (@inl error (QueryTracker * Response)
              (Wrapf (ErrExternal "no such table: missing")
                     (QueryAtFailed 0))) in Hran.
    destruct Hran as (pre & q & post & ierr & Hq & _ & _ & He & Hev).
    assert (Hpre : pre = []).
    { inversion He as [Hl]. destruct pre; [reflexivity | discriminate]. }
    subst pre. cbn in Hq. inversion Hq; subst q post.
    rewrite Ht, Hev. reflexivity.
  - destruct (snd (readWithContext selectCount state100))
      as [err | [ref resp]] eqn:E; [vm_compute in E; discriminate E |].
    exists ref, resp. split; [reflexivity |].
    destruct (Hok ref resp eq_refl) as (_ & Hl). rewrite Hl. reflexivity.
Defined.

(** ** Queries that are not successful writes *)

Lemma writeQueries_error_frame :
  forall req savepoint qs i total lastId s s' err,
  writeQueries req savepoint i qs total lastId s = (s', inl err) ->
  current s' = savepoint /\ queries (pool_ s') = queries (pool_ s) /\
  origin s' = origin s /\ cmpoint s' = cmpoint s.
Proof.
  intros req savepoint qs.
  induction qs as [| v rest IH]; intros i total lastId s s' err; cbn.
  - discriminate.
  - destruct (writeSingle v s) as [s1 [ierr | res]] eqn:E;
      apply writeSingle_frame in E; destruct E as (_ & Hp & _ & Ho & Hm).
    + intro H; inversion H; subst. cbn.
      rewrite setFailed_queries, Hp. repeat split; assumption.
    + intro H. apply IH in H. destruct H as (H1 & H2 & H3 & H4).
      repeat split; congruence.
Qed.

Lemma readTx_counters : forall req s,
  current (fst (readTx req s)) = current s /\
  queries (pool_ (fst (readTx req s))) = queries (pool_ s) /\
  origin (fst (readTx req s)) = origin s /\
  cmpoint (fst (readTx req s)) = cmpoint s.
Proof.
  intros req s. rewrite readTx_unfold.
  destruct (hasSchemaChange s =? 1).
  - destruct (readQueries OnUnc req 0 (Queries (Request_Payload req))
                noResultSet (fst (setSavepoint (Lock s))))
      as [s3 [err | rs]] eqn:E;
      apply readQueries_frame in E;
      destruct E as (_ & Hq & _ & Ho & Hm & _);
      cbn; repeat split; assumption.
  - destruct (ReaderBegin (strg s) (trace s)); [repeat split |].
    destruct (readQueries OnReaderTx req 0 (Queries (Request_Payload req))
                noResultSet (emit EvReaderBegin s))
      as [s2 [err | rs]] eqn:E;
      apply readQueries_frame in E;
      destruct E as (_ & Hq & Hc & Ho & Hm & _);
      cbn; repeat split; assumption.
Qed.

(** X15: what [QueryWithContext] can do to the log.  A request of a type
    other than read and write is refused with [ErrInvalidRequest] and leaves
    the state untouched, the failed set included.  Any query that is not a
    write that succeeds (a read, a failed write, a refused request) leaves
    the counter, origin, commit point and the pooled trackers as they were.
    A write that succeeds appends exactly one tracker, under the counter
    value on entry. *)
Theorem Query_effects : forall req s,
  let s' := fst (QueryWithContext req s) in
  let r := snd (QueryWithContext req s) in
  (QueryType_ (Request_Header req) = InvalidQuery ->
   s' = s /\ r = inl ErrInvalidRequest) /\
  (QueryType_ (Request_Header req) <> WriteQuery \/ isOk r = false ->
   current s' = current s /\ queries (pool_ s') = queries (pool_ s) /\
   origin s' = origin s /\ cmpoint s' = cmpoint s) /\
  (QueryType_ (Request_Header req) = WriteQuery -> isOk r = true ->
   queries (pool_ s') =
     queries (pool_ s) ++ [(current s, mkQueryTracker req None)] /\
   origin s' = origin s /\ cmpoint s' = cmpoint s).
Proof.
  intros req s. unfold QueryWithContext.
  destruct (QueryType_ (Request_Header req)) eqn:Hty; cbn.
  - split; [discriminate |]. split; [| discriminate].
    intros _. apply readTx_counters.
  - split; [discriminate |]. split.
    + intros [Hne | Hfail]; [congruence |].
      unfold write in *.
      destruct (writeQueries req (getID (Lock s)) 0
                  (Queries (Request_Payload req)) 0 0 (Lock s))
        as [s1 [e | [t l]]] eqn:E; [| discriminate Hfail].
      apply writeQueries_error_frame in E. cbn. exact E.
    + intros _ Hok.
      destruct (write req s) as [s1 [e | [ref resp]]] eqn:E;
        [discriminate Hok |].
      apply write_ok_state in E. destruct E as (-> & Hp & _ & Ho & Hm).
      cbn. rewrite Hp. repeat split; assumption.
  - split; [intros _; split; reflexivity |].
    split; [intros _; repeat split | discriminate].
Qed.

Lemma Query_effects_witness :
  current (fst (QueryWithContext insertThenFail state100)) = 100 /\
  queries (pool_ (fst (QueryWithContext insertThenFail state100))) = [] /\
  queries (pool_ (fst (QueryWithContext insertOne state100))) =
    [(100, mkQueryTracker insertOne None)] /\
  snd (QueryWithContext (sampleRequest InvalidQuery 9 []) state100) =
    inl ErrInvalidRequest.
Proof.
  destruct (Query_effects insertThenFail state100) as (_ & Hfail & _).
  destruct (Hfail (or_intror eq_refl)) as (Hc & Hq & _).
  destruct (Query_effects insertOne state100) as (_ & _ & Hok).
  destruct (Hok eq_refl eq_refl) as (Hq1 & _).
  destruct (Query_effects (sampleRequest InvalidQuery 9 []) state100)
    as (Hinv & _).
  destruct (Hinv eq_refl) as (_ & He).
  split; [exact Hc |]. split; [exact Hq |]. split; [exact Hq1 | exact He].
Defined.

(** ** More on replaying a block *)

(** X16: the loop of [ReplayBlockWithContext] checks the type of a request
    once per statement.  An entry at the counter's offset whose request is
    neither a read nor a write makes the call fail with [ErrInvalidRequest],
    wrapped with the entry's index and statement 0, after a rollback to the
    counter and without running any statement, if it has a statement; if it
    has none, it is accepted: a savepoint is issued and the entry is pooled
    under the counter, as for a read. *)
Theorem ReplayBlock_invalid_entry : forall block s done e rest se l0,
  QueryTxs block = done ++ e :: rest ->
  replayBlockTxs 0 done 0 (Lock s) = (se, inr l0) ->
  txType e = InvalidQuery ->
  txOffset e = current se ->
  (txQueries e <> [] ->
   ReplayBlockWithContext block s =
     (Unlock (rollbackTo (current se) se),
      Some (Wrapf ErrInvalidRequest (ReplayBlockAt (List.length done) 0)))) /\
  (txQueries e = [] ->
   replayBlockTxs 0 (QueryTxs block) 0 (Lock s) =
   replayBlockTxs (S (List.length done)) rest (current se)
                  (pooledAt (current se) e se)).
Proof.
  intros block s done e rest se l0 Hb Hdone Hty HO.
  pose proof (replayBlockTxs_app _ _ _ _ _ _ (e :: rest) Hdone) as Happ.
  rewrite <- Hb in Happ. cbn [Nat.add] in Happ.
  split; intro Hq.
  - unfold ReplayBlockWithContext.
    rewrite Happ, replayBlockTxs_head_here, Hty by exact HO.
    destruct (txQueries e) as [| q qs]; [congruence |]. reflexivity.
  - rewrite Happ, replayBlockTxs_head_here, Hty, Hq by exact HO.
    reflexivity.
Qed.

Lemma ReplayBlock_invalid_entry_witness :
  snd (ReplayBlockWithContext
         (mkBlock [sampleTx (sampleRequest InvalidQuery 8
                               ["INSERT INTO t VALUES (8)"%string]) 100] [])
         state100)
    = Some (Wrapf ErrInvalidRequest (ReplayBlockAt 0 0)) /\
  snd (ReplayBlockWithContext
         (mkBlock [sampleTx (sampleRequest InvalidQuery 8 []) 100] [])
         state100)
    = None.
Proof.
  split.
  - destruct (ReplayBlock_invalid_entry
                (mkBlock [sampleTx (sampleRequest InvalidQuery 8
                                      ["INSERT INTO t VALUES (8)"%string])
                                   100] [])
                state100 [] _ [] (Lock state100) 0
                eq_refl eq_refl eq_refl eq_refl) as (H & _).
    rewrite H; [reflexivity | discriminate].
  - destruct (ReplayBlock_invalid_entry
                (mkBlock [sampleTx (sampleRequest InvalidQuery 8 []) 100] [])
                state100 [] _ [] (Lock state100) 0
                eq_refl eq_refl eq_refl eq_refl) as (_ & H).
    unfold ReplayBlockWithContext. rewrite (H eq_refl). reflexivity.
Defined.

Lemma replayBlockTxs_all_pooled : forall txs i l s,
  Forall (fun e => txOffset e < current s /\
                   match_ (pool_ s) (txOffset e) (QueryAsTx_Request e) = true)
         txs ->
  replayBlockTxs i txs l s =
  (s, inr (match txs with [] => l | _ => current s end)).
Proof.
  induction txs as [| e rest IH]; intros i l s F.
  - reflexivity.
  - inversion F as [| e0 l0 [Hlt Hm] F']; subst.
    rewrite replayBlockTxs_head_behind, Hm by exact Hlt.
    rewrite (IH (S i) (current s) s F').
    destruct rest; reflexivity.
Qed.

(** X17: when every entry of a block that is not empty lies behind the
    counter and matches the pool, the loop of [ReplayBlockWithContext]
    changes nothing and sends nothing to the storage, and the end of the
    call (the commit test on the pool and the truncation of the pool) is
    made at the value of the counter, not at the offset of the last
    entry. *)
Theorem ReplayBlock_all_pooled : forall block s,
  QueryTxs block <> [] ->
  Forall (fun e => txOffset e < current s /\
                   match_ (pool_ s) (txOffset e) (QueryAsTx_Request e) = true)
         (QueryTxs block) ->
  replayBlockTxs 0 (QueryTxs block) 0 (Lock s) = (Lock s, inr (current s)) /\
  ReplayBlockWithContext block s =
    finishReplayBlock block (current s) (Lock s).
Proof.
  intros block s Hne F.
  assert (H : replayBlockTxs 0 (QueryTxs block) 0 (Lock s) =
              (Lock s, inr (current s))).
  { rewrite (replayBlockTxs_all_pooled (QueryTxs block) 0 0 (Lock s) F).
    destruct (QueryTxs block); [congruence | reflexivity]. }
  split; [exact H |]. unfold ReplayBlockWithContext. rewrite H. reflexivity.
Qed.

Lemma ReplayBlock_all_pooled_witness :
  let s := fst (write insertTwo (fst (write insertOne state100))) in
  let block := mkBlock [sampleTx insertOne 100; sampleTx insertTwo 101] [] in
  current s = 103 /\
  ReplayBlockWithContext block s = finishReplayBlock block 103 (Lock s).
Proof.
  intros s block. split; [reflexivity |].
  destruct (ReplayBlock_all_pooled block s) as (_ & H).
  - discriminate.
  - repeat constructor.
  - exact H.
Defined.

(** X18: after a call of [ReplayBlockWithContext] that returns no error the
    commit point is the counter, whether the call committed or not; so a
    [rollback] right after it does not move the counter. *)
Theorem ReplayBlock_sets_commit_point : forall block s,
  snd (ReplayBlockWithContext block s) = None ->
  let s' := fst (ReplayBlockWithContext block s) in
  cmpoint s' = current s' /\ current (rollback s') = current s'.
Proof.
  intros block s. unfold ReplayBlockWithContext.
  destruct (replayBlockTxs 0 (QueryTxs block) 0 (Lock s))
    as [s1 [err | lastsp]]; [discriminate |].
  unfold finishReplayBlock.
  destruct (matchLast _ _).
  - destruct (uncCommit (removeFailedReqs (FailedReqs block) s1))
      as [s2 [err |]] eqn:E2; [discriminate |].
    unfold beginUnc. destruct (Begin (strg s2) (trace s2)); [discriminate |].
    intros _. cbn. split; reflexivity.
  - intros _. cbn. split; reflexivity.
Qed.

Lemma ReplayBlock_sets_commit_point_witness :
  let s := fst (write insertTwo (fst (write insertOne state100))) in
  let block := mkBlock [sampleTx insertOne 100] [] in
  cmpoint s = 100 /\
  cmpoint (fst (ReplayBlockWithContext block s)) = 103 /\
  current (fst (ReplayBlockWithContext block s)) = 103.
Proof.
  intros s block. split; [reflexivity |].
  destruct (ReplayBlock_sets_commit_point block s) as (Hm & _).
  - vm_compute. reflexivity.
  - split; [rewrite Hm |]; vm_compute; reflexivity.
Defined.

(** ** Closing *)




